(** * ChessAgents backend: opening classifier, perspective resolver,
      query engine and ingest

    A shallow embedding of

      - [Backend/openings/opening_families.py]  (class [OpeningFamilies]),
      - [Backend/app/agent_queries.py]          (class [AgentQueryService]),
      - [Backend/repositories/game_store.py]    ([_pgn_hash], [upsert_games]),
      - [Backend/scripts/analyze.py]            (class [GameAnalyzer]),

    followed by the properties of these functions.

    Conventions.  A Python [str] is a [string] whose characters are the
    code points U+0000..U+00FF (Latin-1); [Optional[str]] is
    [option string]; a Python [int] is a [Z].  A function that can raise
    returns an [exc]. *)

From Stdlib Require Import ZArith List Bool Lia.
From Stdlib Require Import Strings.String Strings.Ascii.
From Stdlib Require Import Sorting.Sorted Sorting.Permutation.
Import ListNotations.

Open Scope string_scope.
Open Scope Z_scope.

(* ================================================================= *)
(** ** Exceptions *)

Inductive exn : Type :=
| ValueError.

Inductive exc (A : Type) : Type :=
| Ok (a : A)
| Raise (e : exn).

Arguments Ok {A} a.
Arguments Raise {A} e.

Definition bind {A B : Type} (m : exc A) (k : A -> exc B) : exc B :=
  match m with
  | Ok a => k a
  | Raise e => Raise e
  end.

Notation "x <- m ;; k" := (bind m (fun x => k))
  (at level 61, m at next level, right associativity).

Definition fmap {A B : Type} (f : A -> B) (m : exc A) : exc B :=
  x <- m ;; Ok (f x).

(* ================================================================= *)
(** ** Python string primitives *)

Module PyStr.

(** The code point of a character. *)
Definition code (c : ascii) : Z := Z.of_N (N_of_ascii c).

Definition chr (n : Z) : ascii := ascii_of_N (Z.to_N n).

Definition between (lo n hi : Z) : bool := (lo <=? n) && (n <=? hi).

(** [c.lower()] on the characters U+0000..U+00FF: the cased capitals of
    Latin-1 are A-Z and U+00C0..U+00DE without the multiplication sign
    U+00D7; each lowers to the character 32 places further.  (Beyond
    U+00FF a character can lower to more than one character, as U+0130
    does; such strings are outside this development.) *)
Definition lower_char (c : ascii) : ascii :=
  let n := code c in
  if between 65 n 90 || (between 192 n 222 && negb (n =? 215))
  then chr (n + 32) else c.

(** [s.lower()] *)
Fixpoint lower (s : string) : string :=
  match s with
  | EmptyString => EmptyString
  | String c s' => String (lower_char c) (lower s')
  end.

(** [c.upper()] for one character.  Three Latin-1 characters have an
    upper case that is not one Latin-1 character (U+00DF gives "SS",
    U+00B5 and U+00FF leave the range); they are kept as they are, which
    makes no difference to the one use of [upper], a membership test in
    "ABCDE". *)
Definition upper_char (c : ascii) : ascii :=
  let n := code c in
  if between 97 n 122 || (between 224 n 254 && negb (n =? 247))
  then chr (n - 32) else c.

(** [c.isdecimal()]: the characters [int] reads as a digit.  Among
    U+0000..U+00FF they are the digits 0-9; Python has more of them
    beyond (the decimal digits of the other scripts). *)
Definition isdecimal (c : ascii) : bool := between 48 (code c) 57.

(** [c.isdigit()]: the decimal digits and, among U+0000..U+00FF, the
    superscript digits U+00B2, U+00B3 and U+00B9.  (Beyond U+00FF more
    characters pass [isdigit] and not [isdecimal], the circled digits for
    example.) *)
Definition isdigit (c : ascii) : bool :=
  let n := code c in
  isdecimal c || (n =? 178) || (n =? 179) || (n =? 185).

(** Truth value of a string: [bool(s)]. *)
Definition truthy (s : string) : bool :=
  match s with
  | EmptyString => false
  | String _ _ => true
  end.

(** Truth value of an [Optional[str]]: neither [None] nor empty. *)
Definition truthy_opt (o : option string) : bool :=
  match o with
  | Some s => truthy s
  | None => false
  end.

(** [o or str()]: the string itself, the empty string for [None]. *)
Definition or_empty (o : option string) : string :=
  match o with
  | Some s => if truthy s then s else EmptyString
  | None => EmptyString
  end.

Definition len (s : string) : Z := Z.of_nat (String.length s).

(** [c in s] for a one-character [c]. *)
Fixpoint contains_char (s : string) (c : ascii) : bool :=
  match s with
  | EmptyString => false
  | String d s' => Ascii.eqb c d || contains_char s' c
  end.

(** [s.index(c)] for a one-character [c]. *)
Fixpoint index (s : string) (c : ascii) : exc Z :=
  match s with
  | EmptyString => Raise ValueError
  | String d s' => if Ascii.eqb c d then Ok 0 else i <- index s' c ;; Ok (i + 1)
  end.

Fixpoint digits_value (acc : Z) (s : string) : exc Z :=
  match s with
  | EmptyString => Ok acc
  | String c s' =>
      if isdecimal c then digits_value (10 * acc + (code c - 48)) s'
      else Raise ValueError
  end.

(** [int(s)] on a string of digit characters of U+0000..U+00FF: the
    base-10 value when every character is a decimal digit, [ValueError]
    otherwise.  (What else [int] accepts, blanks around the number, a
    sign, underscores, does not pass [isdigit] and so never reaches the
    call in [_eco_to_num].) *)
Definition int (s : string) : exc Z :=
  if truthy s then digits_value 0 s else Raise ValueError.

(** [a == b] on [Optional[str]] *)
Definition opt_eqb (a b : option string) : bool :=
  match a, b with
  | Some x, Some y => String.eqb x y
  | None, None => true
  | _, _ => false
  end.

(** [l[a:b]] *)
Definition clamp (n i : Z) : Z :=
  if i <? 0 then Z.max (i + n) 0 else Z.min i n.

Definition slice {A : Type} (l : list A) (a b : Z) : list A :=
  let n := Z.of_nat (List.length l) in
  let a' := clamp n a in
  let b' := clamp n b in
  firstn (Z.to_nat (b' - a')) (skipn (Z.to_nat a') l).

End PyStr.

(* ================================================================= *)
(** ** The fragment of [re] used by the name rules *)

Module Re.

(** Patterns: literals, character sets, [r?], sequence and alternation. *)
Inductive regex : Type :=
| Eps
| Chr (c : ascii)
| Cls (cs : string)
| Opt (r : regex)
| Cat (r1 r2 : regex)
| Alt (r1 r2 : regex).

(** Under [re.I] two characters of U+0000..U+00FF match when their lower
    cases are equal.  (Beyond U+00FF a letter of a pattern has more
    matches, U+017F for [s] and U+212A for [k].) *)
Definition ci_eqb (c d : ascii) : bool :=
  Ascii.eqb (PyStr.lower_char c) (PyStr.lower_char d).

Fixpoint ci_mem (d : ascii) (cs : string) : bool :=
  match cs with
  | EmptyString => false
  | String c cs' => ci_eqb c d || ci_mem d cs'
  end.

(** [match_k r s k]: some prefix of [s] matches [r] and the rest of [s]
    satisfies [k]. *)
Fixpoint match_k (r : regex) (s : string) (k : string -> bool) : bool :=
  match r with
  | Eps => k s
  | Chr c =>
      match s with
      | String d s' => ci_eqb c d && k s'
      | EmptyString => false
      end
  | Cls cs =>
      match s with
      | String d s' => ci_mem d cs && k s'
      | EmptyString => false
      end
  | Opt r1 => match_k r1 s k || k s
  | Cat r1 r2 => match_k r1 s (fun s' => match_k r2 s' k)
  | Alt r1 r2 => match_k r1 s k || match_k r2 s k
  end.

(** [bool(rx.search(s))] with [rx] compiled under [re.I]. *)
Fixpoint search (r : regex) (s : string) : bool :=
  match_k r s (fun _ => true)
  || match s with
     | EmptyString => false
     | String _ s' => search r s'
     end.

(** A literal word. *)
Fixpoint lit (w : string) : regex :=
  match w with
  | EmptyString => Eps
  | String c EmptyString => Chr c
  | String c w' => Cat (Chr c) (lit w')
  end.

End Re.

(* ================================================================= *)
(** ** [openings/opening_families.py] *)

Module OpeningFamilies.

Import PyStr Re.

(** The family "Grünfeld": its third letter is U+00FC. *)
Definition Grunfeld : string := "Gr" ++ String "252" "nfeld".

(** [(family, start, end)], ranges inclusive. *)
Definition _ECO_RANGES : list (string * string * string) :=
  [ ("Sicilian Defense", "B20", "B99");
    ("French Defense", "C00", "C19");
    ("Caro-Kann Defense", "B10", "B19");
    ("Scandinavian Defense", "B01", "B01");
    ("Alekhine Defense", "B02", "B05");
    ("Pirc/Modern", "B06", "B09");
    ("Ruy Lopez", "C60", "C99");
    ("Italian Game", "C50", "C59");
    ("Scotch Game", "C44", "C45");
    ("Philidor Defense", "C41", "C41");
    ("Petrov Defense", "C40", "C42");
    ("Queen's Gambit", "D06", "D69");
    ("Slav/Semi-Slav", "D10", "D19");
    ("Catalan", "E01", "E09");
    ("Nimzo-Indian", "E20", "E59");
    ("Queen's Indian", "E12", "E19");
    ("King's Indian", "E60", "E99");
    (Grunfeld, "D70", "D99");
    ("Benoni/Benko", "A56", "A79");
    ("Dutch Defense", "A80", "A99");
    ("English Opening", "A10", "A39");
    ("London/Trompowsky/Jobava", "A45", "A46");
    ("Vienna Game", "C25", "C29");
    ("King's Gambit", "C30", "C39");
    ("Other/Irregular", "A00", "A09") ].

Definition apostrophe : ascii := "039".

(** [X'?s Y] *)
Definition possessive (x y : string) : regex :=
  Cat (lit x) (Cat (Opt (Chr apostrophe)) (lit (String "s" (String " " y)))).

(** [(pattern, family)], every pattern compiled with [re.I]. *)
Definition _name_rules : list (regex * string) :=
  [ (lit "sicilian", "Sicilian Defense");
    (lit "french", "French Defense");
    (Cat (lit "caro") (Cat (Opt (Cls "- ")) (lit "kann")), "Caro-Kann Defense");
    (lit "italian", "Italian Game");
    (lit "ruy", "Ruy Lopez");
    (lit "scotch", "Scotch Game");
    (Alt (lit "petrov") (lit "russian"), "Petrov Defense");
    (lit "philidor", "Philidor Defense");
    (possessive "queen" "gambit", "Queen's Gambit");
    (lit "slav", "Slav/Semi-Slav");
    (lit "catalan", "Catalan");
    (lit "nimzo", "Nimzo-Indian");
    (possessive "queen" "indian", "Queen's Indian");
    (possessive "king" "indian", "King's Indian");
    (Cat (lit "gr") (Cat (Cls (String "u" (String "252" EmptyString))) (lit "nfeld")), Grunfeld);
    (Alt (lit "benoni") (lit "benko"), "Benoni/Benko");
    (lit "dutch", "Dutch Defense");
    (lit "english", "English Opening");
    (lit "vienna", "Vienna Game");
    (possessive "king" "gambit", "King's Gambit");
    (Alt (lit "pirc") (lit "modern"), "Pirc/Modern");
    (Alt (lit "london") (Alt (lit "tromp") (lit "jobava")), "London/Trompowsky/Jobava") ].

(** ["B90" -> 2*1000 + 90], letters weighted A=1 .. E=5. *)
Definition _eco_to_num (eco : string) : exc (option Z) :=
  if negb (truthy eco) || negb (len eco =? 3) then Ok None
  else
    match eco with
    | String c0 (String d1 (String d2 EmptyString)) =>
        let letter := upper_char c0 in
        if negb (contains_char "ABCDE" letter)
           || negb (isdigit d1) || negb (isdigit d2)
        then Ok None
        else
          i <- index "ABCDE" letter ;;
          let base := i + 1 in
          v <- int (String d1 (String d2 EmptyString)) ;;
          Ok (Some (base * 1000 + v))
    | _ => Ok None
    end.

(** The loop over [_ECO_RANGES]: the first range holding [n] returns. *)
Fixpoint scan_ranges (n : Z) (ranges : list (string * string * string))
  : exc (option string) :=
  match ranges with
  | [] => Ok None
  | (fam, start, end_) :: rest =>
      ns <- _eco_to_num start ;;
      ne <- _eco_to_num end_ ;;
      match ns, ne with
      | Some ns, Some ne =>
          if (ns <=? n) && (n <=? ne) then Ok (Some fam)
          else scan_ranges n rest
      | _, _ => scan_ranges n rest
      end
  end.

(** The loop over [_name_rules]: the first pattern found returns. *)
Fixpoint scan_rules (opening : string) (rules : list (regex * string))
  : option string :=
  match rules with
  | [] => None
  | (rx, fam) :: rest =>
      if search rx opening then Some fam else scan_rules opening rest
  end.

(** The [if eco:] block; [None] when it falls through. *)
Definition eco_path (eco : option string) : exc (option string) :=
  match eco with
  | Some e =>
      if truthy e then
        n <- _eco_to_num e ;;
        match n with
        | Some n => scan_ranges n _ECO_RANGES
        | None => Ok None
        end
      else Ok None
  | None => Ok None
  end.

(** The [if opening:] block; [None] when it falls through. *)
Definition name_path (opening : option string) : option string :=
  match opening with
  | Some o => if truthy o then scan_rules o _name_rules else None
  | None => None
  end.

Definition family_from_eco_or_name (eco opening : option string)
  : exc string :=
  r <- eco_path eco ;;
  match r with
  | Some fam => Ok fam
  | None =>
      match name_path opening with
      | Some fam => Ok fam
      | None => Ok "Other/Irregular"
      end
  end.

(** The labels the two tables can give, and the catch-all. *)
Definition families : list string :=
  map (fun r => fst (fst r)) _ECO_RANGES ++ map snd _name_rules
  ++ ["Other/Irregular"].

End OpeningFamilies.


(* ================================================================= *)
(** ** The rows of the store *)

(** [class GameRow(SQLModel, table=True)] of [game_store.py].  (The class
    of the same name in [sql_model_game_repository.py] has one more column,
    [eco_url], which no query reads.) *)
Module GameRow.

Record t : Type := {
  id : Z;
  pgn_sha1 : string;
  pgn : string;
  year : Z;
  month : Z;
  white : option string;
  black : option string;
  result : option string;
  time_control : option string;
  eco : option string;
  opening : option string;
  end_time_utc : option Z
}.

End GameRow.

(** What [upsert_games] reads from a game to ingest, "any object with
    attributes": an attribute that is missing, or [None], is [None] here. *)
Module Game.

Record t : Type := {
  pgn : option string;
  year : option Z;
  month : option Z;
  white : option string;
  black : option string;
  result : option string;
  time_control : option string;
  eco : option string;
  end_time_utc : option Z
}.

End Game.

(* ================================================================= *)
(** ** What the queries use of SQL *)

Module Sql.

Import PyStr.

(** SQLite folds the case of the 26 ASCII letters only. *)
Definition lower_char (c : ascii) : ascii :=
  let n := code c in
  if between 65 n 90 then chr (n + 32) else c.

Fixpoint lower (s : string) : string :=
  match s with
  | EmptyString => EmptyString
  | String c s' => String (lower_char c) (lower s')
  end.

Definition nocase_eqb (c d : ascii) : bool :=
  Ascii.eqb (lower_char c) (lower_char d).

Definition percent : ascii := "%".
Definition underscore : ascii := "_".

Definition nul : ascii := "000".

(** What [LIKE] reads of a text: SQLite takes the pattern and the subject
    as C strings, which end at the first NUL character. *)
Fixpoint until_nul (s : string) : string :=
  match s with
  | EmptyString => EmptyString
  | String c s' =>
      if Ascii.eqb c nul then EmptyString else String c (until_nul s')
  end.

(** The comparison of the two texts read: in the pattern [%] stands for
    any run of characters, [_] for any one character, and every other
    character for itself in either case.  There is no escape character. *)
Fixpoint like_match (p : string) : string -> bool :=
  match p with
  | EmptyString => fun s => negb (truthy s)
  | String c p' =>
      if Ascii.eqb c percent then
        fix any_run (s : string) : bool :=
          like_match p' s
          || match s with
             | EmptyString => false
             | String _ s' => any_run s'
             end
      else if Ascii.eqb c underscore then
        fun s =>
          match s with
          | EmptyString => false
          | String _ s' => like_match p' s'
          end
      else
        fun s =>
          match s with
          | EmptyString => false
          | String d s' => nocase_eqb c d && like_match p' s'
          end
  end.

(** [s LIKE p] *)
Definition like (p s : string) : bool :=
  like_match (until_nul p) (until_nul s).

(** [column.ilike(pattern)] as a [WHERE] condition.  On SQLite it is
    [lower(column) LIKE lower(pattern)]; a [NULL] column gives [NULL],
    which selects nothing. *)
Definition ilike (column : option string) (pattern : string) : bool :=
  match column with
  | Some s => like (lower pattern) (lower s)
  | None => false
  end.

(** [ORDER BY id ASC] and [ORDER BY id DESC]. *)
Fixpoint insert_by (le : Z -> Z -> bool) (g : GameRow.t) (rows : list GameRow.t)
  : list GameRow.t :=
  match rows with
  | [] => [g]
  | h :: rest =>
      if le (GameRow.id g) (GameRow.id h) then g :: rows
      else h :: insert_by le g rest
  end.

Definition order_by_id (ascending : bool) (rows : list GameRow.t)
  : list GameRow.t :=
  fold_right (insert_by (if ascending then Z.leb else Z.geb)) [] rows.

(** The key a new row gets: one more than the largest in the table. *)
Definition next_id (rows : list GameRow.t) : Z :=
  1 + fold_right (fun r m => Z.max (GameRow.id r) m) 0 rows.

End Sql.

(* ================================================================= *)
(** ** [repositories/game_store.py] *)

Module GameStore.

Import PyStr.

Section WithHash.

(** [hashlib.sha1(b).hexdigest()] of the UTF-8 bytes of a string. *)
Variable sha1_hexdigest : string -> string.

Definition _pgn_hash (pgn : string) : string := sha1_hexdigest pgn.

Definition int_or_0 (o : option Z) : Z :=
  match o with
  | Some n => n
  | None => 0
  end.

(** [select(GameRow).where(GameRow.pgn_sha1 == digest)] then [.first()] *)
Definition first_with_hash (digest : string) (table : list GameRow.t)
  : option GameRow.t :=
  find (fun r => String.eqb (GameRow.pgn_sha1 r) digest) table.

(** The row built for a game that is not stored yet. *)
Definition new_row (table : list GameRow.t) (g : Game.t) : GameRow.t :=
  let pgn := or_empty (Game.pgn g) in
  {| GameRow.id := Sql.next_id table;
     GameRow.pgn_sha1 := _pgn_hash pgn;
     GameRow.pgn := pgn;
     GameRow.year := int_or_0 (Game.year g);
     GameRow.month := int_or_0 (Game.month g);
     GameRow.white := Game.white g;
     GameRow.black := Game.black g;
     GameRow.result := Game.result g;
     GameRow.time_control := Game.time_control g;
     GameRow.eco := Game.eco g;
     GameRow.opening := None;
     GameRow.end_time_utc := Game.end_time_utc g |}.

(** The loop of [upsert_games].  [table] is what the session sees: the
    stored rows and, the session flushing before each query, the rows
    added earlier in the loop. *)
Fixpoint upsert_loop (games : list Game.t) (table : list GameRow.t)
  (inserted skipped : Z) : list GameRow.t * (Z * Z) :=
  match games with
  | [] => (table, (inserted, skipped))
  | g :: rest =>
      let pgn := or_empty (Game.pgn g) in
      let digest := _pgn_hash pgn in
      match first_with_hash digest table with
      | Some _ => upsert_loop rest table inserted (skipped + 1)
      | None =>
          upsert_loop rest (table ++ [new_row table g]) (inserted + 1) skipped
      end
  end.

(** [upsert_games(games)]: the table after the commit, and
    [(inserted, skipped)]. *)
Definition upsert_games (table : list GameRow.t) (games : list Game.t)
  : list GameRow.t * (Z * Z) :=
  upsert_loop games table 0 0.


End WithHash.

End GameStore.

(* ================================================================= *)
(** ** [app/agent_queries.py] *)

(** The dict of [_row_to_dict]. *)
Module GameView.

Record t : Type := {
  id : Z;
  date : option string;
  white : option string;
  black : option string;
  my_color : option string;
  pov_result : option string;
  eco : option string;
  opening : option string;
  family : string;
  time_control : option string;
  ply_count : option Z;
  end_time_utc : option Z
}.

End GameView.

Module AgentQueryService.

Import PyStr.

Record t : Type := { username : string }.

(** [AgentQueryService(username)] *)
Definition new (name : string) : t := {| username := lower name |}.

Definition _pov (self : t) (g : GameRow.t) : option string :=
  if negb (truthy_opt (GameRow.result g)) then None
  else
    let is_w := String.eqb (lower (or_empty (GameRow.white g))) (username self) in
    let is_b := String.eqb (lower (or_empty (GameRow.black g))) (username self) in
    if negb (is_w || is_b) then None
    else if opt_eqb (GameRow.result g) (Some "1/2-1/2") then Some "draw"
    else if opt_eqb (GameRow.result g) (Some "1-0")
         then Some (if is_w then "win" else "loss")
    else if opt_eqb (GameRow.result g) (Some "0-1")
         then Some (if is_b then "win" else "loss")
    else None.

Definition _my_color (self : t) (g : GameRow.t) : option string :=
  if String.eqb (lower (or_empty (GameRow.white g))) (username self)
  then Some "white"
  else if String.eqb (lower (or_empty (GameRow.black g))) (username self)
  then Some "black"
  else None.

Definition _row_to_dict (self : t) (g : GameRow.t) : exc GameView.t :=
  fam <- OpeningFamilies.family_from_eco_or_name (GameRow.eco g) (GameRow.opening g) ;;
  Ok {| GameView.id := GameRow.id g;
        GameView.date := None;
        GameView.white := GameRow.white g;
        GameView.black := GameRow.black g;
        GameView.my_color := _my_color self g;
        GameView.pov_result := _pov self g;
        GameView.eco := GameRow.eco g;
        GameView.opening := GameRow.opening g;
        GameView.family := fam;
        GameView.time_control := GameRow.time_control g;
        GameView.ply_count := None;
        GameView.end_time_utc := GameRow.end_time_utc g |}.

(** The first [where]: the user name inside the white or the black name. *)
Definition candidate (self : t) (g : GameRow.t) : bool :=
  let pattern := "%" ++ username self ++ "%" in
  Sql.ilike (GameRow.white g) pattern || Sql.ilike (GameRow.black g) pattern.

(** The filters added to the statement when their argument is given. *)
Definition opening_filter (opening_like : option string) (g : GameRow.t) : bool :=
  match opening_like with
  | Some o =>
      if truthy o then Sql.ilike (GameRow.opening g) ("%" ++ o ++ "%") else true
  | None => true
  end.

Definition eco_filter (eco_prefix : option string) (g : GameRow.t) : bool :=
  match eco_prefix with
  | Some p => if truthy p then Sql.ilike (GameRow.eco g) (p ++ "%") else true
  | None => true
  end.

(** [s.exec(stmt).all()] on the table [table]. *)
Definition select_rows (self : t) (table : list GameRow.t)
  (opening_like eco_prefix : option string) (order_dir : string)
  : list GameRow.t :=
  Sql.order_by_id (String.eqb order_dir "asc")
    (filter (fun g => candidate self g
                      && opening_filter opening_like g
                      && eco_filter eco_prefix g) table).

(** The loop over [rows] that fills [out]. *)
Fixpoint filter_rows (self : t) (family color result : option string)
  (rows : list GameRow.t) : exc (list GameView.t) :=
  match rows with
  | [] => Ok []
  | g :: rest =>
      let my_col := _my_color self g in
      if truthy_opt color && negb (opt_eqb my_col color)
      then filter_rows self family color result rest
      else
        let pov := _pov self g in
        if truthy_opt result && negb (opt_eqb pov result)
        then filter_rows self family color result rest
        else
          keep <-
            (if truthy_opt family then
               fam <- OpeningFamilies.family_from_eco_or_name (GameRow.eco g) (GameRow.opening g) ;;
               Ok (String.eqb (lower fam) (lower (or_empty family)))
             else Ok true) ;;
          if keep then
            d <- _row_to_dict self g ;;
            out <- filter_rows self family color result rest ;;
            Ok (d :: out)
          else filter_rows self family color result rest
  end.

Definition games (self : t) (table : list GameRow.t)
  (opening_like eco_prefix family color result : option string)
  (limit offset : Z) (order_dir : string) : exc (list GameView.t) :=
  let rows := select_rows self table opening_like eco_prefix order_dir in
  out <- filter_rows self family color result rows ;;
  Ok (slice out offset (offset + limit)).

Definition wins (self : t) (table : list GameRow.t)
  (opening_like eco_prefix family color : option string)
  (limit offset : Z) (order_dir : string) : exc (list GameView.t) :=
  games self table opening_like eco_prefix family color (Some "win")
    limit offset order_dir.

End AgentQueryService.

(* ================================================================= *)
(** ** Notions the properties are stated with *)

Module Props.

Import PyStr.

(** The numeric bounds of the rows of [_ECO_RANGES], in table order. *)
Definition eco_keys : list (string * Z * Z) :=
  [ ("Sicilian Defense", 2020, 2099);
    ("French Defense", 3000, 3019);
    ("Caro-Kann Defense", 2010, 2019);
    ("Scandinavian Defense", 2001, 2001);
    ("Alekhine Defense", 2002, 2005);
    ("Pirc/Modern", 2006, 2009);
    ("Ruy Lopez", 3060, 3099);
    ("Italian Game", 3050, 3059);
    ("Scotch Game", 3044, 3045);
    ("Philidor Defense", 3041, 3041);
    ("Petrov Defense", 3040, 3042);
    ("Queen's Gambit", 4006, 4069);
    ("Slav/Semi-Slav", 4010, 4019);
    ("Catalan", 5001, 5009);
    ("Nimzo-Indian", 5020, 5059);
    ("Queen's Indian", 5012, 5019);
    ("King's Indian", 5060, 5099);
    (OpeningFamilies.Grunfeld, 4070, 4099);
    ("Benoni/Benko", 1056, 1079);
    ("Dutch Defense", 1080, 1099);
    ("English Opening", 1010, 1039);
    ("London/Trompowsky/Jobava", 1045, 1046);
    ("Vienna Game", 3025, 3029);
    ("King's Gambit", 3030, 3039);
    ("Other/Irregular", 1000, 1009) ].

Fixpoint first_key (n : Z) (keys : list (string * Z * Z)) : option string :=
  match keys with
  | [] => None
  | (fam, lo, hi) :: rest =>
      if (lo <=? n) && (n <=? hi) then Some fam else first_key n rest
  end.

(** The integers [lo], [lo + 1], ..., [hi]. *)
Definition zrange (lo hi : Z) : list Z :=
  map (fun i => lo + Z.of_nat i) (seq 0 (Z.to_nat (hi - lo + 1))).

(** The keys of D10-D19, the bounds of the Slav row. *)
Definition slav_key (n : Z) : bool := between 4010 n 4019.

(** The family a key within the bounds of a row of family [fam] gets:
    C41, within two rows, gets the earlier one. *)
Definition family_of_row (fam : string) (n : Z) : string :=
  if n =? 3041 then "Philidor Defense" else fam.

Definition key_ok (fam : string) (n : Z) : bool :=
  slav_key n
  || match first_key n eco_keys with
     | Some f => String.eqb f (family_of_row fam n)
     | None => false
     end.

Definition row_ok (r : string * Z * Z) : bool :=
  let '(fam, lo, hi) := r in forallb (key_ok fam) (zrange lo hi).

(** The bounds a row of [_ECO_RANGES] is read as. *)
Definition read_row (r : string * string * string)
  : string * exc (option Z) * exc (option Z) :=
  let '(fam, start, end_) := r in
  (fam, OpeningFamilies._eco_to_num start, OpeningFamilies._eco_to_num end_).

Definition show_key (k : string * Z * Z)
  : string * exc (option Z) * exc (option Z) :=
  let '(fam, lo, hi) := k in (fam, Ok (Some lo), Ok (Some hi)).

(** A digit character that [int] does not read: a superscript digit. *)
Definition superscript (c : ascii) : bool := isdigit c && negb (isdecimal c).

Fixpoint no_superscript (s : string) : bool :=
  match s with
  | EmptyString => true
  | String c s' => negb (superscript c) && no_superscript s'
  end.

(** The user name has none of the two pattern characters of [LIKE]. *)
Definition wildcard_free (s : string) : bool :=
  negb (contains_char s Sql.percent) && negb (contains_char s Sql.underscore).

(** [u] is the beginning of [s], up to the case of ASCII letters. *)
Fixpoint prefix_nocase (u s : string) : bool :=
  match u, s with
  | EmptyString, _ => true
  | String c u', String d s' => Sql.nocase_eqb c d && prefix_nocase u' s'
  | String _ _, EmptyString => false
  end.

(** [u] appears somewhere in [s], up to the case of ASCII letters. *)
Fixpoint contains_nocase (u s : string) : bool :=
  prefix_nocase u s
  || match s with
     | EmptyString => false
     | String _ s' => contains_nocase u s'
     end.

Definition appears_in (u : string) (name : option string) : bool :=
  match name with
  | Some s => contains_nocase u s
  | None => false
  end.

(** A family filter that is given, and is no label of the family set in
    any case of its letters. *)
Definition unknown_family (f : string) : bool :=
  truthy f
  && forallb (fun label => negb (String.eqb (lower label) (lower f)))
       OpeningFamilies.families.

(** Classifying the row raises nothing. *)
Definition classifiable (g : GameRow.t) : Prop :=
  exists fam,
    OpeningFamilies.family_from_eco_or_name (GameRow.eco g) (GameRow.opening g)
    = Ok fam.

(** The raw text a game is stored under. *)
Definition raw_text (g : Game.t) : string := or_empty (Game.pgn g).

(** At most one row for each content hash. *)
Definition hash_unique (table : list GameRow.t) : Prop :=
  NoDup (map GameRow.pgn_sha1 table).

(** Making a row with the fields a query looks at. *)
Definition row (i : Z) (w b r e o : option string) : GameRow.t :=
  {| GameRow.id := i; GameRow.pgn_sha1 := EmptyString; GameRow.pgn := EmptyString;
     GameRow.year := 0; GameRow.month := 0;
     GameRow.white := w; GameRow.black := b; GameRow.result := r;
     GameRow.time_control := None; GameRow.eco := e; GameRow.opening := o;
     GameRow.end_time_utc := None |}.

(** Making a game to ingest: its text, players and outcome. *)
Definition game (text w b r : option string) : Game.t :=
  {| Game.pgn := text; Game.year := Some 2025; Game.month := Some 9;
     Game.white := w; Game.black := b; Game.result := r;
     Game.time_control := None; Game.eco := None;
     Game.end_time_utc := None |}.

(** The game has no text, or an empty one. *)
Definition no_text (g : Game.t) : Prop :=
  Game.pgn g = None \/ Game.pgn g = Some EmptyString.

(** Three stored games: Ann beats Bob with white, Ann beats Bob with
    black, and a draw of annabelle. *)
Definition sample_table : list GameRow.t :=
  [ row 1 (Some "Ann") (Some "Bob") (Some "1-0") (Some "B90") None;
    row 2 (Some "Bob") (Some "Ann") (Some "0-1") (Some "C60") None;
    row 3 (Some "annabelle") (Some "Cid") (Some "1/2-1/2") None
      (Some "French Defense") ].

(** The string "A²3", its middle character being U+00B2. *)
Definition A_sup2_3 : string := String "A" (String "178" "3").

(** The string "B²²". *)
Definition B_sup2_sup2 : string := String "B" (String "178" (String "178" EmptyString)).

End Props.

(* ================================================================= *)
(** ** [app/agent_queries.py]: the wrappers of [games] *)

Module AgentQueryWrappers.

Import AgentQueryService.

(** [won is True] gives "win", [won is False] gives "loss". *)
Definition games_by_opening (self : t) (table : list GameRow.t)
  (opening_like eco_prefix family color : option string) (won : option bool)
  (limit offset : Z) (order_dir : string) : exc (list GameView.t) :=
  let res :=
    match won with
    | Some true => Some "win"
    | Some false => Some "loss"
    | None => None
    end in
  games self table opening_like eco_prefix family color res
    limit offset order_dir.

Definition losses (self : t) (table : list GameRow.t)
  (opening_like eco_prefix family color : option string)
  (limit offset : Z) (order_dir : string) : exc (list GameView.t) :=
  games self table opening_like eco_prefix family color (Some "loss")
    limit offset order_dir.

Definition draws (self : t) (table : list GameRow.t)
  (opening_like eco_prefix family color : option string)
  (limit offset : Z) (order_dir : string) : exc (list GameView.t) :=
  games self table opening_like eco_prefix family color (Some "draw")
    limit offset order_dir.

End AgentQueryWrappers.

(* ================================================================= *)
(** ** [scripts/analyze.py]: [GameAnalyzer.games_by_result] *)

(** The dataclass [GameView] of [analyze.py]. *)
Module AnalyzerView.

Record t : Type := {
  id : Z;
  year : Z;
  month : Z;
  white : option string;
  black : option string;
  result : option string;
  eco : option string;
  opening : option string
}.

End AnalyzerView.

Module GameAnalyzer.

Import PyStr.

Inductive error : Type :=
| AssertionError.

(** [select(GameRow).offset(offset).limit(limit)] on SQLite, the rows in
    the order of the table: a negative offset skips nothing, a negative
    limit bounds nothing. *)
Definition offset_limit {A : Type} (offset limit : Z) (rows : list A)
  : list A :=
  let rest := skipn (Z.to_nat offset) rows in
  if limit <? 0 then rest else firstn (Z.to_nat limit) rest.

(** The three predicates defined inside [games_by_result]. *)
Definition is_win (uname : string) (r : GameRow.t) : bool :=
  if negb (truthy_opt (GameRow.result r)) then false
  else if String.eqb (lower (or_empty (GameRow.white r))) uname
       then opt_eqb (GameRow.result r) (Some "1-0")
  else if String.eqb (lower (or_empty (GameRow.black r))) uname
       then opt_eqb (GameRow.result r) (Some "0-1")
  else false.

Definition is_loss (uname : string) (r : GameRow.t) : bool :=
  if negb (truthy_opt (GameRow.result r)) then false
  else if String.eqb (lower (or_empty (GameRow.white r))) uname
       then opt_eqb (GameRow.result r) (Some "0-1")
  else if String.eqb (lower (or_empty (GameRow.black r))) uname
       then opt_eqb (GameRow.result r) (Some "1-0")
  else false.

Definition is_draw (r : GameRow.t) : bool :=
  opt_eqb (GameRow.result r) (Some "1/2-1/2").

Section WithHeaders.

(** [header_eco] and [header_opening], which read a header of the PGN
    text with a regular expression, are taken as they come. *)
Variable header_eco : string -> option string.
Variable header_opening : string -> option string.

Definition _to_view (row : GameRow.t) : AnalyzerView.t :=
  {| AnalyzerView.id := GameRow.id row;
     AnalyzerView.year := GameRow.year row;
     AnalyzerView.month := GameRow.month row;
     AnalyzerView.white := GameRow.white row;
     AnalyzerView.black := GameRow.black row;
     AnalyzerView.result := GameRow.result row;
     AnalyzerView.eco :=
       if truthy_opt (GameRow.eco row) then GameRow.eco row
       else header_eco (GameRow.pgn row);
     AnalyzerView.opening := header_opening (GameRow.pgn row) |}.

(** The rows [games_by_result] keeps, before [_to_view]. *)
Definition rows_by_result (table : list GameRow.t)
  (username outcome : string) (limit offset : Z)
  : error + list GameRow.t :=
  let outcome := lower outcome in
  if negb (String.eqb outcome "win" || String.eqb outcome "loss"
           || String.eqb outcome "draw")
  then inl AssertionError
  else
    let uname := lower username in
    let predicate :=
      if String.eqb outcome "win" then is_win uname
      else if String.eqb outcome "loss" then is_loss uname
      else is_draw in
    let rows := offset_limit offset (limit * 10) table in
    let filtered := filter predicate rows in
    inr (slice filtered 0 limit).

Definition games_by_result (table : list GameRow.t)
  (username outcome : string) (limit offset : Z)
  : error + list AnalyzerView.t :=
  match rows_by_result table username outcome limit offset with
  | inl e => inl e
  | inr rows => inr (map _to_view rows)
  end.

End WithHeaders.

End GameAnalyzer.

(* ================================================================= *)
(** ** More notions the properties are stated with *)

Module Notions.

Import PyStr.

(** The keys of the well-formed codes that no row of the table holds:
    A40-A44, A47-A55, B00, C20-C24, C43, C46-C49, D00-D05, E00, E10-E11. *)
Definition gaps : list (Z * Z) :=
  [ (1040, 1044); (1047, 1055); (2000, 2000); (3020, 3024); (3043, 3043);
    (3046, 3049); (4000, 4005); (5000, 5000); (5010, 5011) ].

Definition in_gap (n : Z) : bool :=
  existsb (fun g => between (fst g) n (snd g)) gaps.

(** A key is that of a well-formed code: a letter weight 1-5 and two
    digits. *)
Definition eco_key (n : Z) : bool :=
  between 1 (n / 1000) 5 && between 0 (n mod 1000) 99.

(** All the keys of well-formed codes. *)
Definition all_keys : list Z :=
  flat_map (fun b => Props.zrange (b * 1000) (b * 1000 + 99)) [1; 2; 3; 4; 5].

(** The tests [is_w] and [is_b] of [_pov]: the white, the black name of
    the row in lower case is the user name, a name that is missing being
    compared as the empty string. *)
Definition plays_white (self : AgentQueryService.t) (g : GameRow.t) : bool :=
  String.eqb (lower (or_empty (GameRow.white g)))
    (AgentQueryService.username self).

Definition plays_black (self : AgentQueryService.t) (g : GameRow.t) : bool :=
  String.eqb (lower (or_empty (GameRow.black g)))
    (AgentQueryService.username self).

(** The digits 0-9, and the codes whose two characters after the first
    are of them. *)
Definition digit_0_9 (c : ascii) : bool := between 48 (code c) 57.

Definition written_0_9 (eco : string) : bool :=
  match eco with
  | String _ (String d1 (String d2 EmptyString)) => digit_0_9 d1 && digit_0_9 d2
  | _ => false
  end.

(** The user name is the name a column of the row holds, up to case; a
    column that is NULL holds no name. *)
Definition named (column : option string) (user : string) : bool :=
  match column with
  | Some name => String.eqb (lower name) user
  | None => false
  end.

(** A filter that is given lets the value through. *)
Definition passes (filter value : option string) : bool :=
  negb (truthy_opt filter) || opt_eqb value filter.

Definition passes_family (filter : option string) (fam : string) : bool :=
  negb (truthy_opt filter)
  || String.eqb (lower fam) (lower (or_empty filter)).

(** The order [ORDER BY id] asks for. *)
Definition id_order (ascending : bool) (a b : Z) : Prop :=
  if ascending then a <= b else b <= a.

(** Every row carries the hash of its own text. *)
Definition hashed_by (sha1 : string -> string) (table : list GameRow.t)
  : Prop :=
  Forall (fun r => GameRow.pgn_sha1 r = sha1 (GameRow.pgn r)) table.

(** No two rows with the same key. *)
Definition ids_unique (table : list GameRow.t) : Prop :=
  NoDup (map GameRow.id table).

(** The hashes of the texts of a batch of games. *)
Definition batch_hashes (sha1 : string -> string) (games : list Game.t)
  : list string :=
  map (fun g => sha1 (Props.raw_text g)) games.

End Notions.

Import PyStr OpeningFamilies Props.

(* ================================================================= *)
(** * Properties of the opening classifier *)

Section Classifier.

Lemma bind_ok {A B : Type} (m : exc A) (k : A -> exc B) (b : B) :
  bind m k = Ok b -> exists a, m = Ok a /\ k a = Ok b.
Proof.
  destruct m as [a | e]; simpl; intros H; [exists a; auto | discriminate].
Qed.

Lemma eco_to_num_truthy (eco : string) (n : Z) :
  _eco_to_num eco = Ok (Some n) -> truthy eco = true.
Proof.
  destruct eco; [discriminate | reflexivity].
Qed.

Lemma scan_ranges_cons (fam start end_ : string) rest keys (n lo hi : Z) :
  _eco_to_num start = Ok (Some lo) ->
  _eco_to_num end_ = Ok (Some hi) ->
  scan_ranges n rest = Ok (first_key n keys) ->
  scan_ranges n ((fam, start, end_) :: rest)
  = Ok (first_key n ((fam, lo, hi) :: keys)).
Proof.
  intros Hs He Hrest. cbn [scan_ranges first_key].
  rewrite Hs, He. cbn [bind]. rewrite Hrest.
  destruct ((lo <=? n) && (n <=? hi)); reflexivity.
Qed.

(** The loop over the table is a lookup in its numeric bounds: no bound
    of the table is malformed, and none makes [int] raise. *)
Lemma scan_ranges_keys (n : Z) :
  scan_ranges n _ECO_RANGES = Ok (first_key n eco_keys).
Proof.
  unfold _ECO_RANGES, eco_keys.
  repeat (apply scan_ranges_cons; [vm_compute; reflexivity .. | ]).
  reflexivity.
Qed.

Lemma in_zrange (lo hi n : Z) : lo <= n <= hi -> In n (zrange lo hi).
Proof.
  intros Hn. unfold zrange. apply in_map_iff.
  exists (Z.to_nat (n - lo)). split; [lia | ].
  apply in_seq. lia.
Qed.

(** Every row of the table, checked key by key. *)
Lemma rows_ok : forallb row_ok eco_keys = true.
Proof. vm_compute. reflexivity. Qed.

Lemma first_key_in_range (fam : string) (lo hi n : Z) :
  In (fam, lo, hi) eco_keys ->
  lo <= n <= hi ->
  ~ (4010 <= n <= 4019) ->
  first_key n eco_keys = Some (family_of_row fam n).
Proof.
  intros Hin Hn Hslav.
  pose proof (proj1 (forallb_forall _ _) rows_ok _ Hin) as Hrow.
  cbn [row_ok] in Hrow.
  pose proof (proj1 (forallb_forall _ _) Hrow _ (in_zrange _ _ _ Hn)) as Hkey.
  unfold key_ok in Hkey.
  apply orb_true_iff in Hkey. destruct Hkey as [Hkey | Hkey].
  - unfold slav_key, between in Hkey. lia.
  - destruct (first_key n eco_keys) as [f | ]; [ | discriminate].
    apply String.eqb_eq in Hkey. now subst f.
Qed.

Lemma ranges_read : map read_row _ECO_RANGES = map show_key eco_keys.
Proof. vm_compute. reflexivity. Qed.

Lemma range_in_keys (fam start end_ : string) (ns ne : Z) :
  In (fam, start, end_) _ECO_RANGES ->
  _eco_to_num start = Ok (Some ns) ->
  _eco_to_num end_ = Ok (Some ne) ->
  In (fam, ns, ne) eco_keys.
Proof.
  intros Hin Hs He.
  apply (in_map read_row) in Hin. rewrite ranges_read in Hin.
  cbn [read_row] in Hin. rewrite Hs, He in Hin.
  apply in_map_iff in Hin. destruct Hin as [[[f lo] hi] [Heq Hin]].
  cbn [show_key] in Heq. now inversion Heq; subst.
Qed.

(** Outside C41 and D10-D19 the rows holding a key agree on the family:
    there the order of the table decides nothing. *)
Lemma rows_agree (fam1 fam2 : string) (lo1 hi1 lo2 hi2 n : Z) :
  In (fam1, lo1, hi1) eco_keys ->
  In (fam2, lo2, hi2) eco_keys ->
  lo1 <= n <= hi1 ->
  lo2 <= n <= hi2 ->
  n <> 3041 ->
  ~ (4010 <= n <= 4019) ->
  fam1 = fam2.
Proof.
  intros Hin1 Hin2 Hn1 Hn2 Hphil Hslav.
  pose proof (first_key_in_range fam1 lo1 hi1 n Hin1 Hn1 Hslav) as H1.
  pose proof (first_key_in_range fam2 lo2 hi2 n Hin2 Hn2 Hslav) as H2.
  unfold family_of_row in H1, H2.
  destruct (Z.eqb_spec n 3041); [contradiction | congruence].
Qed.

Lemma slav_keys_taken :
  forallb (fun n => match first_key n eco_keys with
                    | Some f => String.eqb f "Queen's Gambit"
                    | None => false
                    end) (zrange 4010 4019) = true.
Proof. vm_compute. reflexivity. Qed.

End Classifier.

(** C1, as amended.  For every well-formed ECO code whose key lies within
    the bounds of a row of the ECO table, and outside D10-D19, the
    classifier returns that row's family whatever the opening name is;
    except for C41, which lies within both Philidor (C41-C41) and Petrov
    (C40-C42) and gives the earlier row, Philidor.  Hence outside C41 and
    D10-D19 no key lies within two rows of different families. *)
Theorem eco_range_family
  (eco : string) (opening : option string) (fam start end_ : string)
  (n ns ne : Z) :
  _eco_to_num eco = Ok (Some n) ->
  In (fam, start, end_) _ECO_RANGES ->
  _eco_to_num start = Ok (Some ns) ->
  _eco_to_num end_ = Ok (Some ne) ->
  ns <= n <= ne ->
  ~ (4010 <= n <= 4019) ->
  family_from_eco_or_name (Some eco) opening
  = Ok (if n =? 3041 then "Philidor Defense" else fam).
Proof.
  intros Heco Hin Hs He Hn Hslav.
  unfold family_from_eco_or_name, eco_path.
  rewrite (eco_to_num_truthy _ _ Heco), Heco. cbn [bind].
  rewrite scan_ranges_keys. cbn [bind].
  rewrite (first_key_in_range fam ns ne n); auto.
  eapply range_in_keys; eauto.
Qed.

Lemma eco_range_family_witness :
  _eco_to_num "b32" = Ok (Some 2032)
  /\ In ("Sicilian Defense", "B20", "B99") _ECO_RANGES
  /\ family_from_eco_or_name (Some "b32") (Some "French") = Ok "Sicilian Defense".
Proof.
  split; [reflexivity | split; [left; reflexivity | ]].
  apply (eco_range_family "b32" (Some "French") "Sicilian Defense" "B20" "B99"
           2032 2020 2099);
    [reflexivity | left; reflexivity | reflexivity | reflexivity | lia | lia].
Defined.

(** C1 as stated fails: C41 lies within the bounds of the Petrov row
    (C40-C42) and the classifier returns Philidor, the row before it; and
    the Philidor and Petrov rows overlap. *)
Lemma eco_range_family_counterexample :
  In ("Petrov Defense", "C40", "C42") _ECO_RANGES
  /\ _eco_to_num "C40" = Ok (Some 3040)
  /\ _eco_to_num "C42" = Ok (Some 3042)
  /\ _eco_to_num "C41" = Ok (Some 3041)
  /\ 3040 <= 3041 <= 3042
  /\ family_from_eco_or_name (Some "C41") None = Ok "Philidor Defense"
  /\ family_from_eco_or_name (Some "C41") None <> Ok "Petrov Defense".
Proof.
  repeat split; try reflexivity; try lia; try discriminate.
  unfold _ECO_RANGES. do 10 right. left. reflexivity.
Qed.

(** The Slav row (D10-D19) lies inside the Queen's Gambit row (D06-D69)
    that precedes it: every code of D10-D19 is classified Queen's Gambit,
    and no code reaches the Slav row. *)
Lemma slav_row_shadowed (eco : string) (opening : option string) (n : Z) :
  _eco_to_num eco = Ok (Some n) ->
  4010 <= n <= 4019 ->
  family_from_eco_or_name (Some eco) opening = Ok "Queen's Gambit".
Proof.
  intros Heco Hn.
  unfold family_from_eco_or_name, eco_path.
  rewrite (eco_to_num_truthy _ _ Heco), Heco. cbn [bind].
  rewrite scan_ranges_keys. cbn [bind].
  pose proof (proj1 (forallb_forall _ _) slav_keys_taken _ (in_zrange _ _ _ Hn))
    as Hkey.
  cbv beta in Hkey.
  destruct (first_key n eco_keys) as [f | ]; [ | discriminate].
  apply String.eqb_eq in Hkey. now subst f.
Qed.

(* ----------------------------------------------------------------- *)
(** *** Totality, and what breaks it *)

Section Totality.

Lemma index_of_member (s : string) (c : ascii) :
  contains_char s c = true -> exists i, index s c = Ok i.
Proof.
  induction s as [ | d s IH]; cbn [contains_char index]; [discriminate | ].
  destruct (Ascii.eqb c d); [eexists; reflexivity | ].
  cbn [orb]. intros H. destruct (IH H) as [i ->]. eexists; reflexivity.
Qed.

Lemma int_of_decimals (d1 d2 : ascii) :
  isdecimal d1 = true -> isdecimal d2 = true ->
  exists v, int (String d1 (String d2 EmptyString)) = Ok v.
Proof.
  intros H1 H2. unfold int. cbn [truthy digits_value].
  rewrite H1, H2. eexists; reflexivity.
Qed.

Lemma digit_not_superscript (c : ascii) :
  isdigit c = true -> superscript c = false -> isdecimal c = true.
Proof.
  unfold superscript. intros ->. now destruct (isdecimal c).
Qed.

(** Without superscript digits the conversion of a code cannot raise. *)
Lemma eco_to_num_total (eco : string) :
  no_superscript eco = true -> exists r, _eco_to_num eco = Ok r.
Proof.
  intros Hsafe. unfold _eco_to_num.
  destruct (negb (truthy eco) || negb (len eco =? 3)); [eexists; reflexivity | ].
  destruct eco as [ | c0 [ | d1 [ | d2 [ | ? ?]]]]; try (eexists; reflexivity).
  cbn [no_superscript] in Hsafe.
  apply andb_true_iff in Hsafe. destruct Hsafe as [_ Hsafe].
  apply andb_true_iff in Hsafe. destruct Hsafe as [S1 Hsafe].
  apply andb_true_iff in Hsafe. destruct Hsafe as [S2 _].
  apply negb_true_iff in S1, S2.
  destruct (contains_char "ABCDE" (upper_char c0)) eqn:Hletter;
    [ | eexists; reflexivity].
  destruct (isdigit d1) eqn:D1; [ | eexists; reflexivity].
  destruct (isdigit d2) eqn:D2; [ | eexists; reflexivity].
  cbn [negb orb].
  destruct (index_of_member _ _ Hletter) as [i ->].
  destruct (int_of_decimals d1 d2) as [v ->];
    auto using digit_not_superscript.
  eexists; reflexivity.
Qed.

Lemma scan_ranges_family (n : Z) ranges (fam : string) :
  scan_ranges n ranges = Ok (Some fam) ->
  In fam (map (fun r => fst (fst r)) ranges).
Proof.
  induction ranges as [ | [[f start] end_] rest IH];
    cbn [scan_ranges map In fst]; [discriminate | ].
  destruct (_eco_to_num start) as [[ns | ] | ?]; cbn [bind];
    try discriminate;
    destruct (_eco_to_num end_) as [[ne | ] | ?]; cbn [bind];
    try discriminate; auto.
  destruct ((ns <=? n) && (n <=? ne)); auto.
  intros H. left. congruence.
Qed.

Lemma scan_rules_family (opening : string) rules (fam : string) :
  scan_rules opening rules = Some fam -> In fam (map snd rules).
Proof.
  induction rules as [ | [rx f] rest IH]; cbn [scan_rules map In snd];
    [discriminate | ].
  destruct (Re.search rx opening); auto.
  intros H. left. congruence.
Qed.

(** Whatever the classifier returns is a label of its tables. *)
Lemma family_in_families (eco opening : option string) (fam : string) :
  family_from_eco_or_name eco opening = Ok fam -> In fam families.
Proof.
  unfold family_from_eco_or_name, families. intros H.
  apply bind_ok in H. destruct H as [r [Heco H]].
  destruct r as [f | ].
  - injection H as <-. apply in_or_app. left.
    unfold eco_path in Heco.
    destruct eco as [e | ]; [ | discriminate].
    destruct (truthy e); [ | discriminate].
    apply bind_ok in Heco. destruct Heco as [[n | ] [_ Hscan]];
      [ | discriminate].
    eapply scan_ranges_family; eauto.
  - apply in_or_app. right. apply in_or_app.
    destruct (name_path opening) as [f | ] eqn:Hname; injection H as <-.
    + left. unfold name_path in Hname.
      destruct opening as [o | ]; [ | discriminate].
      destruct (truthy o); [ | discriminate].
      eapply scan_rules_family; eauto.
    + right. left. reflexivity.
Qed.

(** The classifier raises exactly when the conversion of its code does. *)
Lemma family_of_converted (e : string) (opening : option string)
  (r : option Z) :
  _eco_to_num e = Ok r ->
  exists fam, family_from_eco_or_name (Some e) opening = Ok fam.
Proof.
  intros He. unfold family_from_eco_or_name, eco_path.
  destruct (truthy e); cbn [bind].
  - rewrite He. cbn [bind]. destruct r as [n | ]; cbn [bind].
    + rewrite scan_ranges_keys. cbn [bind].
      destruct (first_key n eco_keys); [eexists; reflexivity | ].
      destruct (name_path opening); eexists; reflexivity.
    + destruct (name_path opening); eexists; reflexivity.
  - destruct (name_path opening); eexists; reflexivity.
Qed.

(** On codes without superscript digits the classifier is total, and
    returns a label of the family set. *)
Lemma family_total (eco opening : option string) :
  no_superscript (or_empty eco) = true ->
  exists fam,
    family_from_eco_or_name eco opening = Ok fam /\ In fam families.
Proof.
  intros Hsafe.
  assert (exists fam, family_from_eco_or_name eco opening = Ok fam)
    as [fam Hfam].
  { destruct eco as [e | ].
    - destruct (truthy e) eqn:Ht.
      + cbn [or_empty] in Hsafe. rewrite Ht in Hsafe.
        destruct (eco_to_num_total e Hsafe) as [r Hr].
        eapply family_of_converted; eauto.
      + unfold family_from_eco_or_name, eco_path. rewrite Ht. cbn [bind].
        destruct (name_path opening); eexists; reflexivity.
    - unfold family_from_eco_or_name, eco_path. cbn [bind].
      destruct (name_path opening); eexists; reflexivity. }
  exists fam. split; [assumption | ].
  eapply family_in_families; eauto.
Qed.

(** The catch-all, when neither path matches. *)
Lemma family_catch_all (eco opening : option string) :
  eco_path eco = Ok None -> name_path opening = None ->
  family_from_eco_or_name eco opening = Ok "Other/Irregular".
Proof.
  intros He Hn. unfold family_from_eco_or_name.
  rewrite He. cbn [bind]. now rewrite Hn.
Qed.

(** A code the conversion rejects is treated as an absent one. *)
Lemma rejected_eco_as_absent (e : string) (opening : option string) :
  _eco_to_num e = Ok None ->
  family_from_eco_or_name (Some e) opening
  = family_from_eco_or_name None opening.
Proof.
  intros He. unfold family_from_eco_or_name, eco_path.
  destruct (truthy e); [rewrite He | ]; reflexivity.
Qed.

Lemma upper_char_idempotent (c : ascii) :
  upper_char (upper_char c) = upper_char c.
Proof.
  destruct c as [[] [] [] [] [] [] [] []]; reflexivity.
Qed.

(** The letter of a code is read in either case. *)
Lemma eco_letter_case (c d1 d2 : ascii) (opening : option string) :
  family_from_eco_or_name (Some (String (upper_char c) (String d1 (String d2 EmptyString)))) opening
  = family_from_eco_or_name (Some (String c (String d1 (String d2 EmptyString)))) opening.
Proof.
  unfold family_from_eco_or_name, eco_path, _eco_to_num.
  cbn [truthy len String.length negb orb].
  rewrite upper_char_idempotent. reflexivity.
Qed.

Example classify_examples :
  family_from_eco_or_name (Some "B32") None = Ok "Sicilian Defense"
  /\ family_from_eco_or_name None (Some "Queen's Gambit Declined")
     = Ok "Queen's Gambit"
  /\ family_from_eco_or_name (Some "Z99") (Some "nonsense")
     = Ok "Other/Irregular"
  /\ family_from_eco_or_name None None = Ok "Other/Irregular".
Proof. repeat split. Qed.

End Totality.

(** C7.  The classifier is not total: on the code "A²3", whose middle
    character is the superscript two, [isdigit] lets the character through
    and [int] then raises [ValueError]. *)
Theorem classify_raises_on_superscript_digit :
  isdigit "178" = true
  /\ isdecimal "178" = false
  /\ _eco_to_num A_sup2_3 = Raise ValueError
  /\ family_from_eco_or_name (Some A_sup2_3) None = Raise ValueError.
Proof. repeat split. Qed.

(** C8.  A malformed code is not always treated as absent: "B²²" has two
    characters that are no digits 0-9, and with it the classifier raises
    [ValueError] where with no code it answers from the opening name. *)
Theorem malformed_eco_not_as_absent :
  family_from_eco_or_name (Some B_sup2_sup2) (Some "Sicilian Najdorf")
  = Raise ValueError
  /\ family_from_eco_or_name None (Some "Sicilian Najdorf")
     = Ok "Sicilian Defense".
Proof. split; reflexivity. Qed.

(* ================================================================= *)
(** * Properties of the perspective resolver *)

Import AgentQueryService.

(** C2, as amended.  With the outcome codes [_pov] reads, those of the PGN
    [Result] header: in a game of alice (white) against bob (black) that
    white won, "1-0", alice sees a win and bob a loss. *)
Theorem pov_player_swap (g : GameRow.t) :
  GameRow.white g = Some "alice" ->
  GameRow.black g = Some "bob" ->
  GameRow.result g = Some "1-0" ->
  _pov (new "alice") g = Some "win" /\ _pov (new "bob") g = Some "loss".
Proof.
  intros Hw Hb Hr. unfold _pov. rewrite Hw, Hb, Hr. split; reflexivity.
Qed.

Lemma pov_player_swap_witness :
  let g := row 7 (Some "alice") (Some "bob") (Some "1-0") (Some "B90") None in
  _pov (new "alice") g = Some "win" /\ _pov (new "bob") g = Some "loss".
Proof.
  exact (pov_player_swap
           (row 7 (Some "alice") (Some "bob") (Some "1-0") (Some "B90") None)
           eq_refl eq_refl eq_refl).
Defined.

(** C2 as stated fails: the outcome "white wins" is none of the codes
    [_pov] knows, and both players get no result. *)
Lemma pov_player_swap_counterexample :
  _pov (new "alice")
    (row 7 (Some "alice") (Some "bob") (Some "white wins") None None) = None
  /\ _pov (new "bob")
       (row 7 (Some "alice") (Some "bob") (Some "white wins") None None) = None
  /\ _pov (new "alice")
       (row 7 (Some "alice") (Some "bob") (Some "white wins") None None)
     <> Some "win".
Proof. repeat split. discriminate. Qed.

Section Resolver.

Lemma opt_eqb_neq (a : option string) (s : string) :
  a <> Some s -> opt_eqb a (Some s) = false.
Proof.
  destruct a as [x | ]; cbn [opt_eqb]; [ | reflexivity].
  intros H. apply String.eqb_neq. congruence.
Qed.

(** With the same colours and the outcome "0-1" the results swap. *)
Lemma pov_black_wins (g : GameRow.t) :
  GameRow.white g = Some "alice" ->
  GameRow.black g = Some "bob" ->
  GameRow.result g = Some "0-1" ->
  _pov (new "alice") g = Some "loss" /\ _pov (new "bob") g = Some "win".
Proof.
  intros Hw Hb Hr. unfold _pov. rewrite Hw, Hb, Hr. split; reflexivity.
Qed.

End Resolver.

(** C4, as amended.  [_pov], a function that raises nothing, gives no
    result when the game has no outcome, when the user name is neither the
    white nor the black name up to case (whatever the outcome), a name
    that is missing being compared as the empty string, and when the
    outcome is none of the three codes. *)
Theorem pov_undefined (name : string) (g : GameRow.t) :
  GameRow.result g = None
  \/ (lower (or_empty (GameRow.white g)) <> lower name
      /\ lower (or_empty (GameRow.black g)) <> lower name)
  \/ (GameRow.result g <> Some "1/2-1/2"
      /\ GameRow.result g <> Some "1-0"
      /\ GameRow.result g <> Some "0-1") ->
  _pov (new name) g = None.
Proof.
  intros H. unfold _pov, new. cbn [username].
  destruct (truthy_opt (GameRow.result g)) eqn:Hres; [ | reflexivity].
  cbn [negb].
  destruct H as [H | [[Hw Hb] | [Hd [H10 H01]]]].
  - rewrite H in Hres. discriminate.
  - apply String.eqb_neq in Hw, Hb. rewrite Hw, Hb. reflexivity.
  - rewrite !opt_eqb_neq by assumption.
    now destruct (_ || _).
Qed.

Lemma pov_undefined_witness :
  _pov (new "Carol") (row 7 (Some "alice") (Some "bob") (Some "1-0") None None)
  = None.
Proof.
  apply (pov_undefined "Carol"
           (row 7 (Some "alice") (Some "bob") (Some "1-0") None None)).
  right; left. split; discriminate.
Defined.

(** C4 as stated fails: the empty user name is the name of neither player
    of a game whose white name is missing and whose black name is "Bob",
    and [_pov] gives it the result "win": the missing name is compared
    as the empty string, which the empty user name equals. *)
Lemma pov_undefined_counterexample :
  GameRow.white (row 2 None (Some "Bob") (Some "1-0") None None) = None
  /\ GameRow.black (row 2 None (Some "Bob") (Some "1-0") None None)
     = Some "Bob"
  /\ lower "Bob" <> lower EmptyString
  /\ Notions.named (GameRow.white (row 2 None (Some "Bob") (Some "1-0") None None))
       (username (new EmptyString)) = false
  /\ Notions.named (GameRow.black (row 2 None (Some "Bob") (Some "1-0") None None))
       (username (new EmptyString)) = false
  /\ _pov (new EmptyString) (row 2 None (Some "Bob") (Some "1-0") None None)
     = Some "win"
  /\ _pov (new EmptyString) (row 2 None (Some "Bob") (Some "1-0") None None)
     <> None.
Proof. repeat split; discriminate. Qed.

(* ================================================================= *)
(** * Properties of the ingest *)

Import GameStore.

Section Ingest.

Variable sha1 : string -> string.

Lemma first_with_hash_none (digest : string) (table : list GameRow.t) :
  first_with_hash digest table = None ->
  ~ In digest (map GameRow.pgn_sha1 table).
Proof.
  unfold first_with_hash. intros Hnone Hin.
  apply in_map_iff in Hin. destruct Hin as [r [Hr Hin]].
  pose proof (find_none _ _ Hnone r Hin) as Hneq. cbv beta in Hneq.
  apply String.eqb_neq in Hneq. contradiction.
Qed.

Lemma first_with_hash_some (digest : string) (table : list GameRow.t)
  (r : GameRow.t) :
  In r table -> GameRow.pgn_sha1 r = digest ->
  exists r', first_with_hash digest table = Some r'.
Proof.
  intros Hin Hr.
  destruct (first_with_hash digest table) as [r' | ] eqn:Hfind;
    [eexists; reflexivity | ].
  exfalso. apply (first_with_hash_none _ _ Hfind).
  rewrite <- Hr. now apply in_map.
Qed.

Lemma hash_unique_add (table : list GameRow.t) (r : GameRow.t) :
  hash_unique table ->
  first_with_hash (GameRow.pgn_sha1 r) table = None ->
  hash_unique (table ++ [r]).
Proof.
  unfold hash_unique. intros Hnd Hnone.
  rewrite map_app. cbn [map].
  apply NoDup_app; [assumption | repeat constructor; intros [] | ].
  intros x Hx [<- | []].
  exact (first_with_hash_none _ _ Hnone Hx).
Qed.

(** The loop keeps the hashes apart, and counts every game once. *)
Lemma upsert_loop_spec (games : list Game.t) :
  forall (table : list GameRow.t) (inserted skipped : Z),
    hash_unique table ->
    let '(table', (inserted', skipped')) :=
      upsert_loop sha1 games table inserted skipped in
    hash_unique table'
    /\ inserted' + skipped' = inserted + skipped + Z.of_nat (List.length games).
Proof.
  induction games as [ | g rest IH]; intros table inserted skipped Hu.
  - cbn. split; [assumption | lia].
  - cbn [upsert_loop].
    destruct (first_with_hash _ table) as [r | ] eqn:Hfind.
    + specialize (IH table inserted (skipped + 1) Hu).
      destruct (upsert_loop sha1 rest table inserted (skipped + 1))
        as [t' [i' s']].
      destruct IH as [Hu' Hcount]. split; [assumption | ].
      cbn [List.length]. lia.
    + assert (hash_unique (table ++ [new_row sha1 table g])) as Hu1
          by (apply hash_unique_add; assumption).
      specialize (IH _ (inserted + 1) skipped Hu1).
      destruct (upsert_loop sha1 rest _ (inserted + 1) skipped)
        as [t' [i' s']].
      destruct IH as [Hu' Hcount]. split; [assumption | ].
      cbn [List.length]. lia.
Qed.

Lemma upsert_games_unique (table : list GameRow.t) (games : list Game.t) :
  hash_unique table -> hash_unique (fst (upsert_games sha1 table games)).
Proof.
  intros Hu. unfold upsert_games.
  pose proof (upsert_loop_spec games table 0 0 Hu) as H.
  destruct (upsert_loop sha1 games table 0 0) as [t' [i' s']].
  exact (proj1 H).
Qed.


(** Once a row with the hash of a text is stored, the games with that
    text are skipped, whatever else they say. *)
Lemma upsert_loop_skips (text : string) (games : list Game.t) :
  forall (table : list GameRow.t) (inserted skipped : Z),
    (exists r, In r table /\ GameRow.pgn_sha1 r = sha1 text) ->
    Forall (fun g => raw_text g = text) games ->
    upsert_loop sha1 games table inserted skipped
    = (table, (inserted, skipped + Z.of_nat (List.length games))).
Proof.
  induction games as [ | g rest IH]; intros table inserted skipped Hrow Hall.
  - cbn. now rewrite Z.add_0_r.
  - inversion Hall as [ | ? ? Hg Hrest]; subst.
    cbn [upsert_loop]. fold (raw_text g). unfold _pgn_hash.
    destruct Hrow as [r [Hin Hr]].
    destruct (first_with_hash_some _ _ r Hin Hr) as [r' ->].
    rewrite IH; [ | exists r; auto | assumption].
    cbn [List.length]. do 2 f_equal. lia.
Qed.

Lemma in_upsert_one (table : list GameRow.t) (g : Game.t) :
  exists r, In r (fst (upsert_games sha1 table [g]))
            /\ GameRow.pgn_sha1 r = sha1 (raw_text g).
Proof.
  unfold upsert_games. cbn [upsert_loop]. fold (raw_text g). unfold _pgn_hash.
  destruct (first_with_hash _ table) as [r | ] eqn:Hfind; cbn [fst].
  - unfold first_with_hash in Hfind. apply find_some in Hfind.
    destruct Hfind as [Hin Heq]. apply String.eqb_eq in Heq.
    exists r. auto.
  - exists (new_row sha1 table g). split; [ | reflexivity].
    apply in_or_app. right. left. reflexivity.
Qed.

Lemma raw_text_empty (g : Game.t) : no_text g -> raw_text g = EmptyString.
Proof.
  unfold raw_text. intros [-> | ->]; reflexivity.
Qed.

End Ingest.



(** C10.  A game with no text, or an empty one, is hashed as the empty
    string.  Once the first such game went through the ingest, the store
    has a row with the hash of the empty string, and every later game with
    no or empty text is skipped, whatever its players, outcome and dates. *)
Theorem empty_text_collapses (sha1 : string -> string)
  (table : list GameRow.t) (g : Game.t) (later : list Game.t) :
  no_text g ->
  Forall no_text later ->
  _pgn_hash sha1 (or_empty (Game.pgn g)) = sha1 EmptyString
  /\ (exists r, In r (fst (upsert_games sha1 table [g]))
                /\ GameRow.pgn_sha1 r = sha1 EmptyString)
  /\ upsert_games sha1 (fst (upsert_games sha1 table [g])) later
     = (fst (upsert_games sha1 table [g]), (0, Z.of_nat (List.length later))).
Proof.
  intros Hg Hlater.
  pose proof (raw_text_empty g Hg) as Htext. unfold raw_text in Htext.
  pose proof (in_upsert_one sha1 table g) as Hrow.
  unfold raw_text in Hrow. rewrite Htext in Hrow.
  split; [unfold _pgn_hash; now rewrite Htext | ].
  split; [exact Hrow | ].
  unfold upsert_games at 1.
  rewrite (upsert_loop_skips sha1 EmptyString); auto.
  eapply Forall_impl; [ | exact Hlater].
  intros g'. apply raw_text_empty.
Qed.

Lemma empty_text_collapses_witness :
  upsert_games (fun s => s)
    (fst (upsert_games (fun s => s) []
            [game None (Some "Ann") (Some "Bob") (Some "1-0")]))
    [game (Some EmptyString) (Some "Cid") (Some "Dan") (Some "0-1");
     game None (Some "Eve") (Some "Fay") (Some "1/2-1/2")]
  = (fst (upsert_games (fun s => s) []
            [game None (Some "Ann") (Some "Bob") (Some "1-0")]),
     (0, 2)).
Proof.
  refine (proj2 (proj2 (empty_text_collapses (fun s => s) []
            (game None (Some "Ann") (Some "Bob") (Some "1-0"))
            [game (Some EmptyString) (Some "Cid") (Some "Dan") (Some "0-1");
             game None (Some "Eve") (Some "Fay") (Some "1/2-1/2")]
            _ _))).
  - left. reflexivity.
  - constructor; [right; reflexivity | ].
    constructor; [left; reflexivity | constructor].
Defined.

(* ================================================================= *)
(** * Properties of the query engine *)

(* ----------------------------------------------------------------- *)
(** *** Slices *)

Section Slices.

Context {A : Type}.

Lemma clamp_nonneg (n i : Z) : 0 <= i -> clamp n i = Z.min i n.
Proof.
  intros Hi. unfold clamp. destruct (Z.ltb_spec i 0); [lia | reflexivity].
Qed.

Lemma slice_whole (l : list A) (b : Z) :
  Z.of_nat (List.length l) <= b -> slice l 0 (0 + b) = l.
Proof.
  intros Hb. unfold slice. rewrite !clamp_nonneg by lia.
  rewrite (Z.min_l 0), (Z.min_r (0 + b)) by lia.
  rewrite Z.sub_0_r, Nat2Z.id. cbn [Z.to_nat skipn].
  apply firstn_all.
Qed.

Lemma slice_nonneg (l : list A) (a n : Z) :
  0 <= a -> 0 <= n ->
  slice l a (a + n) = firstn (Z.to_nat n) (skipn (Z.to_nat a) l).
Proof.
  intros Ha Hn. unfold slice. rewrite !clamp_nonneg by lia.
  destruct (Z.le_gt_cases (Z.of_nat (List.length l)) a) as [Hbig | Hsmall].
  - rewrite !skipn_all2 by lia. now rewrite !firstn_nil.
  - rewrite (Z.min_l a) by lia.
    destruct (Z.le_gt_cases (a + n) (Z.of_nat (List.length l))) as [Hin | Hout].
    + rewrite Z.min_l by lia. f_equal. lia.
    + rewrite Z.min_r by lia.
      rewrite !firstn_all2; [reflexivity | | ]; rewrite length_skipn; lia.
Qed.

Lemma slice_beyond (l : list A) (a b : Z) :
  Z.of_nat (List.length l) <= a -> slice l a b = [].
Proof.
  intros Ha. unfold slice. rewrite (clamp_nonneg _ a) by lia.
  rewrite (Z.min_r a) by lia. rewrite Nat2Z.id.
  rewrite skipn_all. apply firstn_nil.
Qed.

End Slices.

(* ----------------------------------------------------------------- *)
(** *** [LIKE] with a pattern [%name%] *)

Section Like.

Lemma sql_lower_char_idempotent (c : ascii) :
  Sql.lower_char (Sql.lower_char c) = Sql.lower_char c.
Proof.
  destruct c as [[] [] [] [] [] [] [] []]; reflexivity.
Qed.

Lemma sql_lower_char_percent (c : ascii) :
  Ascii.eqb (Sql.lower_char c) Sql.percent = Ascii.eqb c Sql.percent.
Proof.
  destruct c as [[] [] [] [] [] [] [] []]; reflexivity.
Qed.

Lemma sql_lower_char_underscore (c : ascii) :
  Ascii.eqb (Sql.lower_char c) Sql.underscore = Ascii.eqb c Sql.underscore.
Proof.
  destruct c as [[] [] [] [] [] [] [] []]; reflexivity.
Qed.

Lemma nocase_eqb_lowered (c d : ascii) :
  Sql.nocase_eqb (Sql.lower_char c) (Sql.lower_char d) = Sql.nocase_eqb c d.
Proof.
  unfold Sql.nocase_eqb. now rewrite !sql_lower_char_idempotent.
Qed.

Lemma sql_lower_append (a b : string) :
  Sql.lower (a ++ b) = Sql.lower a ++ Sql.lower b.
Proof.
  induction a as [ | c a IH]; cbn [append Sql.lower]; [reflexivity | ].
  now rewrite IH.
Qed.

(** The three cases of a pattern that is not empty. *)
Lemma like_cons (c : ascii) (p s : string) :
  Sql.like_match (String c p) s
  = if Ascii.eqb c Sql.percent then
      Sql.like_match p s
      || match s with
         | EmptyString => false
         | String _ s' => Sql.like_match (String c p) s'
         end
    else
      match s with
      | EmptyString => false
      | String d s' =>
          (if Ascii.eqb c Sql.underscore then true else Sql.nocase_eqb c d)
          && Sql.like_match p s'
      end.
Proof.
  cbn [Sql.like_match].
  destruct (Ascii.eqb c Sql.percent).
  - destruct s; reflexivity.
  - destruct (Ascii.eqb c Sql.underscore); destruct s; reflexivity.
Qed.

Lemma like_any (s : string) : Sql.like_match "%" s = true.
Proof.
  induction s as [ | d s IH].
  - reflexivity.
  - rewrite like_cons. cbn [Ascii.eqb Sql.percent Bool.eqb].
    change (String "%" EmptyString) with "%". rewrite IH. apply orb_true_r.
Qed.

Lemma wildcard_free_cons (c : ascii) (u : string) :
  wildcard_free (String c u) = true ->
  Ascii.eqb c Sql.percent = false
  /\ Ascii.eqb c Sql.underscore = false
  /\ wildcard_free u = true.
Proof.
  unfold wildcard_free. cbn [contains_char].
  rewrite (Ascii.eqb_sym Sql.percent c), (Ascii.eqb_sym Sql.underscore c).
  rewrite andb_true_iff, !negb_true_iff, !orb_false_iff.
  intros [[Hp H1] [Hu H2]]. rewrite H1, H2. auto.
Qed.

(** A pattern [name%], the name without pattern characters, matches the
    strings that begin with the name. *)
Lemma like_prefix (u : string) :
  wildcard_free u = true ->
  forall s,
    Sql.like_match (Sql.lower u ++ "%") (Sql.lower s) = prefix_nocase u s.
Proof.
  induction u as [ | c u IH]; intros Hfree s.
  - cbn [Sql.lower append prefix_nocase]. apply like_any.
  - destruct (wildcard_free_cons _ _ Hfree) as [Hp [Hu Hfree']].
    cbn [Sql.lower append]. rewrite like_cons.
    rewrite sql_lower_char_percent, Hp, sql_lower_char_underscore, Hu.
    destruct s as [ | d s]; cbn [Sql.lower prefix_nocase]; [reflexivity | ].
    now rewrite nocase_eqb_lowered, IH.
Qed.

(** A pattern [%name%] matches the strings the name appears in. *)
Lemma like_contains (u : string) :
  wildcard_free u = true ->
  forall s,
    Sql.like_match (Sql.lower ("%" ++ u ++ "%")) (Sql.lower s) = contains_nocase u s.
Proof.
  intros Hfree s.
  change (Sql.lower ("%" ++ u ++ "%"))
    with (String Sql.percent (Sql.lower (u ++ "%"))).
  rewrite sql_lower_append. change (Sql.lower "%") with "%".
  induction s as [ | d s IH].
  - rewrite like_cons. cbn [Ascii.eqb Sql.percent Bool.eqb].
    rewrite (like_prefix u Hfree EmptyString). cbn [contains_nocase].
    reflexivity.
  - cbn [Sql.lower]. rewrite like_cons. cbn [Ascii.eqb Sql.percent Bool.eqb].
    change (String (Sql.lower_char d) (Sql.lower s))
      with (Sql.lower (String d s)) at 1.
    rewrite (like_prefix u Hfree (String d s)).
    cbn [contains_nocase]. f_equal. exact IH.
Qed.

Lemma sql_lower_char_nul (c : ascii) :
  Ascii.eqb (Sql.lower_char c) Sql.nul = Ascii.eqb c Sql.nul.
Proof.
  destruct c as [[] [] [] [] [] [] [] []]; reflexivity.
Qed.

Lemma until_nul_lower (s : string) :
  Sql.until_nul (Sql.lower s) = Sql.lower (Sql.until_nul s).
Proof.
  induction s as [ | c s IH]; cbn [Sql.lower Sql.until_nul]; [reflexivity | ].
  rewrite sql_lower_char_nul.
  destruct (Ascii.eqb c Sql.nul); cbn [Sql.lower]; [reflexivity | ].
  now rewrite IH.
Qed.

Lemma until_nul_free (s : string) :
  contains_char s Sql.nul = false -> Sql.until_nul s = s.
Proof.
  induction s as [ | c s IH]; cbn [contains_char Sql.until_nul];
    [reflexivity | ].
  rewrite (Ascii.eqb_sym Sql.nul c).
  destruct (Ascii.eqb c Sql.nul); cbn [orb]; [discriminate | ].
  intros H. now rewrite IH.
Qed.

Lemma contains_char_app (a b : string) (c : ascii) :
  contains_char (a ++ b) c = contains_char a c || contains_char b c.
Proof.
  induction a as [ | d a IH]; cbn [append contains_char]; [reflexivity | ].
  now rewrite IH, orb_assoc.
Qed.

(** With a pattern without NUL, [LIKE] compares the pattern with the
    subject up to its first NUL. *)
Lemma like_lowered (pattern s : string) :
  contains_char pattern Sql.nul = false ->
  Sql.like (Sql.lower pattern) (Sql.lower s)
  = Sql.like_match (Sql.lower pattern) (Sql.lower (Sql.until_nul s)).
Proof.
  intros Hnul. unfold Sql.like.
  now rewrite !until_nul_lower, (until_nul_free pattern Hnul).
Qed.

Lemma ilike_contains (u : string) (column : option string) :
  wildcard_free u = true ->
  contains_char u Sql.nul = false ->
  Sql.ilike column ("%" ++ u ++ "%")
  = appears_in u (option_map Sql.until_nul column).
Proof.
  intros Hfree Hnul.
  destruct column as [s | ]; cbn [Sql.ilike option_map appears_in];
    [ | reflexivity].
  rewrite like_lowered.
  - now apply like_contains.
  - rewrite !contains_char_app, Hnul. reflexivity.
Qed.



End Like.




(* ----------------------------------------------------------------- *)
(** *** The rows of a query *)

Section Rows.

Lemma insert_by_length le (g : GameRow.t) rows :
  List.length (Sql.insert_by le g rows) = S (List.length rows).
Proof.
  induction rows as [ | h rest IH]; cbn [Sql.insert_by List.length];
    [reflexivity | ].
  destruct (le _ _); cbn [List.length]; [reflexivity | now rewrite IH].
Qed.

Lemma in_insert_by le (g x : GameRow.t) rows :
  In x (Sql.insert_by le g rows) -> x = g \/ In x rows.
Proof.
  induction rows as [ | h rest IH]; cbn [Sql.insert_by In].
  - intros [<- | []]. now left.
  - destruct (le _ _); cbn [In].
    + intros [<- | [<- | H]]; auto.
    + intros [<- | H]; auto. destruct (IH H); auto.
Qed.

Lemma order_by_id_length asc rows :
  List.length (Sql.order_by_id asc rows) = List.length rows.
Proof.
  unfold Sql.order_by_id.
  induction rows as [ | g rest IH]; cbn [fold_right List.length];
    [reflexivity | ].
  now rewrite insert_by_length, IH.
Qed.

Lemma in_order_by_id asc (x : GameRow.t) rows :
  In x (Sql.order_by_id asc rows) -> In x rows.
Proof.
  unfold Sql.order_by_id.
  induction rows as [ | g rest IH]; cbn [fold_right In]; [auto | ].
  intros H. apply in_insert_by in H. destruct H as [-> | H]; auto.
Qed.

Lemma select_rows_length self table opening_like eco_prefix order_dir :
  (List.length (select_rows self table opening_like eco_prefix order_dir)
   <= List.length table)%nat.
Proof.
  unfold select_rows. rewrite order_by_id_length. apply filter_length_le.
Qed.

Lemma in_select_rows self table opening_like eco_prefix order_dir g :
  In g (select_rows self table opening_like eco_prefix order_dir) ->
  In g table /\ candidate self g = true.
Proof.
  unfold select_rows. intros H. apply in_order_by_id in H.
  apply filter_In in H. destruct H as [Hin H].
  apply andb_true_iff in H. destruct H as [H _].
  apply andb_true_iff in H. destruct H as [H _]. auto.
Qed.

Lemma filter_rows_length self family color result rows out :
  filter_rows self family color result rows = Ok out ->
  (List.length out <= List.length rows)%nat.
Proof.
  revert out. induction rows as [ | g rest IH]; intros out;
    cbn [filter_rows List.length].
  - intros H. injection H as <-. auto.
  - destruct (truthy_opt color && _); [intros H; apply IH in H; lia | ].
    destruct (truthy_opt result && _); [intros H; apply IH in H; lia | ].
    intros H. apply bind_ok in H. destruct H as [keep [_ H]].
    destruct keep; [ | apply IH in H; lia].
    apply bind_ok in H. destruct H as [d [_ H]].
    apply bind_ok in H. destruct H as [out' [Hrest H]].
    injection H as <-. apply IH in Hrest. cbn [List.length]. lia.
Qed.

Lemma unknown_family_differs (f fam : string) :
  unknown_family f = true -> In fam families ->
  String.eqb (lower fam) (lower f) = false.
Proof.
  unfold unknown_family. intros H Hin.
  apply andb_true_iff in H. destruct H as [_ H].
  pose proof (proj1 (forallb_forall _ _) H fam Hin) as Hfam.
  now apply negb_true_iff in Hfam.
Qed.

(** With a family filter no label matches, the loop keeps no row. *)
Lemma filter_rows_unknown_family self (f : string) color result rows :
  unknown_family f = true ->
  Forall classifiable rows ->
  filter_rows self (Some f) color result rows = Ok [].
Proof.
  intros Hf Hrows.
  assert (truthy f = true) as Ht
      by (unfold unknown_family in Hf; now apply andb_true_iff in Hf).
  induction Hrows as [ | g rest [fam Hfam] _ IH]; cbn [filter_rows];
    [reflexivity | ].
  destruct (truthy_opt color && _); [exact IH | ].
  destruct (truthy_opt result && _); [exact IH | ].
  cbn [truthy_opt or_empty]. rewrite Ht, Hfam. cbn [bind].
  rewrite (unknown_family_differs f fam Hf (family_in_families _ _ _ Hfam)).
  exact IH.
Qed.

End Rows.

(** C3.  For every limit [L] and offset [O], [games] with [L] and [O] is
    the slice [O : O + L] of [games] with offset 0 and a limit no smaller
    than the number of stored rows, an error of the one being the error of
    the other; for [L] and [O] not negative the slice skips [O] rows and
    takes up to [L]; and the slice is taken last, of the rows that went
    through the filters of the statement, the ordering and the filters of
    the loop. *)
Theorem games_pagination (self : AgentQueryService.t) (table : list GameRow.t)
  (opening_like eco_prefix family color result : option string)
  (order_dir : string) (L O B : Z) :
  Z.of_nat (List.length table) <= B ->
  games self table opening_like eco_prefix family color result L O order_dir
  = fmap (fun all => slice all O (O + L))
      (games self table opening_like eco_prefix family color result B 0 order_dir)
  /\ (0 <= O -> 0 <= L ->
      games self table opening_like eco_prefix family color result L O order_dir
      = fmap (fun all => firstn (Z.to_nat L) (skipn (Z.to_nat O) all))
          (games self table opening_like eco_prefix family color result B 0
             order_dir))
  /\ games self table opening_like eco_prefix family color result L O order_dir
     = fmap (fun out => slice out O (O + L))
         (filter_rows self family color result
            (select_rows self table opening_like eco_prefix order_dir)).
Proof.
  intros HB. unfold games, fmap.
  pose proof (select_rows_length self table opening_like eco_prefix order_dir)
    as Hsel.
  destruct (filter_rows self family color result _) as [out | e] eqn:Hout;
    cbn [bind]; [ | repeat split; reflexivity].
  apply filter_rows_length in Hout.
  rewrite slice_whole by lia.
  split; [reflexivity | split; [ | reflexivity]].
  intros HO HL. now rewrite slice_nonneg.
Qed.

Lemma games_pagination_witness :
  games (new "ann") sample_table None None None None None 1 1 "asc"
  = fmap (fun all => slice all 1 (1 + 1))
      (games (new "ann") sample_table None None None None None 3 0 "asc")
  /\ fmap (map GameView.id)
       (games (new "ann") sample_table None None None None None 1 1 "asc")
     = Ok [2].
Proof.
  split; [ | reflexivity].
  apply (games_pagination (new "ann") sample_table None None None None None
           "asc" 1 1 3).
  cbn. lia.
Defined.

Section Degrading.

Lemma slice_nil {A : Type} (a b : Z) : slice (@nil A) a b = [].
Proof.
  unfold slice. rewrite skipn_nil. apply firstn_nil.
Qed.

Lemma filter_none {A : Type} (f : A -> bool) (l : list A) :
  (forall x, In x l -> f x = false) -> filter f l = [].
Proof.
  induction l as [ | x l IH]; intros H; cbn [filter]; [reflexivity | ].
  rewrite (H x) by (now left). apply IH. intros y Hy. apply H. now right.
Qed.

Lemma not_in_families (s : string) :
  forallb (fun label => negb (String.eqb label s)) families = true ->
  ~ In s families.
Proof.
  intros H Hin.
  pose proof (proj1 (forallb_forall _ _) H s Hin) as Hs. cbv beta in Hs.
  rewrite String.eqb_refl in Hs. discriminate.
Qed.

End Degrading.

(** C9, as amended.  [games] returns the empty list, and no error, when
    the family filter is a string that is not empty and is no family label
    in any case of its letters, on a store whose rows the classifier takes
    without raising; when no stored game is a candidate for the user name;
    and when the rows that went through the filters are no more than the
    offset. *)
Theorem games_empty (self : AgentQueryService.t) (table : list GameRow.t)
  (opening_like eco_prefix family color result : option string)
  (order_dir : string) (limit offset : Z) :
  (exists f, family = Some f /\ unknown_family f = true
             /\ Forall classifiable table)
  \/ (forall g, In g table -> candidate self g = false)
  \/ (exists out,
        filter_rows self family color result
          (select_rows self table opening_like eco_prefix order_dir) = Ok out
        /\ Z.of_nat (List.length out) <= offset) ->
  games self table opening_like eco_prefix family color result limit offset
    order_dir
  = Ok [].
Proof.
  intros [[f [-> [Hf Hrows]]] | [Hnone | [out [Hout Hoff]]]]; unfold games.
  - rewrite filter_rows_unknown_family; auto.
    + cbn [bind]. now rewrite slice_nil.
    + apply Forall_forall. intros g Hg. apply in_select_rows in Hg.
      exact (proj1 (Forall_forall _ _) Hrows g (proj1 Hg)).
  - unfold select_rows. rewrite filter_none.
    + cbn. now rewrite slice_nil.
    + intros g Hg. now rewrite (Hnone g Hg).
  - rewrite Hout. cbn [bind]. now rewrite slice_beyond.
Qed.

Lemma games_empty_witness :
  unknown_family "Chess960" = true
  /\ games (new "ann") sample_table None None (Some "Chess960") None None
       50 0 "desc"
     = Ok [].
Proof.
  split; [reflexivity | ].
  apply (games_empty (new "ann") sample_table None None (Some "Chess960")
           None None "desc" 50 0).
  left. exists "Chess960". split; [reflexivity | split; [reflexivity | ]].
  repeat constructor; eexists; reflexivity.
Defined.

(** C9 as stated fails: the empty string is no family label, and as a
    family filter it filters nothing; and "SICILIAN DEFENSE" is no family
    label either, and as a family filter it keeps the Sicilian games. *)
Lemma games_empty_counterexample :
  ~ In EmptyString families
  /\ fmap (map GameView.id)
       (games (new "ann") sample_table None None (Some EmptyString) None None
          50 0 "asc")
     = Ok [1; 2; 3]
  /\ ~ In "SICILIAN DEFENSE" families
  /\ fmap (map GameView.id)
       (games (new "ann") sample_table None None (Some "SICILIAN DEFENSE")
          None None 50 0 "asc")
     = Ok [1].
Proof.
  repeat split; try reflexivity; apply not_in_families; reflexivity.
Qed.

(** The error of the classifier goes through [games]: a stored game with
    the code "A²3" makes the query raise. *)
Lemma games_raises_on_superscript_digit :
  games (new "ann")
    [row 1 (Some "Ann") (Some "Bob") (Some "1-0") (Some A_sup2_3) None]
    None None None None None 50 0 "desc"
  = Raise ValueError.
Proof. reflexivity. Qed.

(* ================================================================= *)
(** * More on the opening classifier *)

Import Notions.

Section EcoKeys.

Lemma index_ABCDE (c : ascii) (i : Z) :
  index "ABCDE" c = Ok i -> 0 <= i <= 4 /\ c = chr (65 + i).
Proof.
  destruct c as [[] [] [] [] [] [] [] []]; cbn; intros H;
    try discriminate H; injection H as <-; split; (lia || reflexivity).
Qed.

Lemma decimal_value (d : ascii) :
  isdecimal d = true -> 0 <= code d - 48 <= 9.
Proof.
  unfold isdecimal, between. rewrite andb_true_iff, !Z.leb_le. lia.
Qed.

Lemma code_injective (c d : ascii) : code c = code d -> c = d.
Proof.
  unfold code. intros H. apply N2Z.inj in H.
  rewrite <- (ascii_N_embedding c), <- (ascii_N_embedding d). now rewrite H.
Qed.

Lemma int_two_digits (d1 d2 : ascii) (v : Z) :
  int (String d1 (String d2 EmptyString)) = Ok v ->
  isdecimal d1 = true /\ isdecimal d2 = true
  /\ v = 10 * (code d1 - 48) + (code d2 - 48).
Proof.
  unfold int. cbn [truthy digits_value].
  destruct (isdecimal d1); [ | discriminate].
  destruct (isdecimal d2); [ | discriminate].
  intros H. injection H as <-. repeat split; lia.
Qed.

(** What a converted code looks like. *)
Lemma eco_to_num_inv (eco : string) (n : Z) :
  _eco_to_num eco = Ok (Some n) ->
  exists c d1 d2 i,
    eco = String c (String d1 (String d2 EmptyString))
    /\ index "ABCDE" (upper_char c) = Ok i
    /\ isdecimal d1 = true /\ isdecimal d2 = true
    /\ n = (i + 1) * 1000 + (10 * (code d1 - 48) + (code d2 - 48)).
Proof.
  unfold _eco_to_num.
  destruct (negb (truthy eco) || negb (len eco =? 3)); [discriminate | ].
  destruct eco as [ | c [ | d1 [ | d2 [ | ? ?]]]]; try discriminate.
  destruct (negb (contains_char "ABCDE" (upper_char c))
            || negb (isdigit d1) || negb (isdigit d2)); [discriminate | ].
  intros H. apply bind_ok in H. destruct H as [i [Hi H]].
  apply bind_ok in H. destruct H as [v [Hv H]].
  injection H as <-.
  destruct (int_two_digits _ _ _ Hv) as [D1 [D2 ->]].
  exists c, d1, d2, i. auto.
Qed.

Lemma converted_in_all_keys (eco : string) (n : Z) :
  _eco_to_num eco = Ok (Some n) -> In n all_keys.
Proof.
  intros H. destruct (eco_to_num_inv _ _ H) as [c [d1 [d2 [i [_ [Hi [D1 [D2 ->]]]]]]]].
  apply index_ABCDE in Hi. destruct Hi as [Hi _].
  apply decimal_value in D1, D2.
  unfold all_keys. apply in_flat_map. exists (i + 1). split.
  - assert (i = 0 \/ i = 1 \/ i = 2 \/ i = 3 \/ i = 4) as Hcases by lia.
    cbn [In]. lia.
  - apply in_zrange. lia.
Qed.

(** Key by key: a key of a gap is in no row, every other key is in one. *)
Lemma gaps_checked :
  forallb (fun n => match first_key n eco_keys with
                    | None => in_gap n
                    | Some _ => negb (in_gap n)
                    end) all_keys = true.
Proof. vm_compute. reflexivity. Qed.

Lemma key_in_gap (eco : string) (n : Z) :
  _eco_to_num eco = Ok (Some n) ->
  in_gap n = true <-> first_key n eco_keys = None.
Proof.
  intros H.
  pose proof (proj1 (forallb_forall _ _) gaps_checked n
                (converted_in_all_keys _ _ H)) as Hn.
  cbv beta in Hn.
  destruct (first_key n eco_keys); split; intros H'; try reflexivity;
    try discriminate; auto.
  rewrite H' in Hn. discriminate.
Qed.

End EcoKeys.

(** X1.  The key of a converted code has the weight of its letter in the
    thousands, 1 to 5, and its two digits below: it lies between 1000 and
    5099, the code has three characters, and the key is less than 100
    above a multiple of 1000. *)
Theorem eco_to_num_bounds (eco : string) (n : Z) :
  _eco_to_num eco = Ok (Some n) ->
  String.length eco = 3%nat
  /\ 1000 <= n <= 5099
  /\ 1 <= n / 1000 <= 5
  /\ 0 <= n mod 1000 <= 99.
Proof.
  intros H.
  destruct (eco_to_num_inv _ _ H) as [c [d1 [d2 [i [-> [Hi [D1 [D2 ->]]]]]]]].
  apply index_ABCDE in Hi. destruct Hi as [Hi _].
  apply decimal_value in D1, D2.
  split; [reflexivity | ].
  assert (0 <= 10 * (code d1 - 48) + (code d2 - 48) <= 99) as Hv by lia.
  rewrite Z.add_comm, Z.div_add, Z.mod_add by lia.
  rewrite Z.div_small, Z.mod_small by lia. lia.
Qed.

Lemma eco_to_num_bounds_witness :
  _eco_to_num "e97" = Ok (Some 5097) /\ 1000 <= 5097 <= 5099.
Proof.
  split; [reflexivity | ].
  exact (proj1 (proj2 (eco_to_num_bounds "e97" 5097 eq_refl))).
Defined.

(** X2.  Two codes written with the digits 0-9 that have the same key
    have the same digits and the same letter up to its case.  (Python's
    [int] reads the decimal digits of every script, so a code written with
    other decimal digits has the key of one written with 0-9; among the
    characters U+0000..U+00FF the decimal digits are 0-9 alone.) *)
Theorem eco_to_num_injective (eco1 eco2 : string) (n : Z) :
  written_0_9 eco1 = true ->
  written_0_9 eco2 = true ->
  _eco_to_num eco1 = Ok (Some n) ->
  _eco_to_num eco2 = Ok (Some n) ->
  exists c1 c2 d1 d2,
    eco1 = String c1 (String d1 (String d2 EmptyString))
    /\ eco2 = String c2 (String d1 (String d2 EmptyString))
    /\ upper_char c1 = upper_char c2.
Proof.
  intros _ _ H1 H2.
  destruct (eco_to_num_inv _ _ H1) as [c1 [d1 [d2 [i [-> [Hi [D1 [D2 E1]]]]]]]].
  destruct (eco_to_num_inv _ _ H2) as [c2 [e1 [e2 [j [-> [Hj [F1 [F2 E2]]]]]]]].
  apply index_ABCDE in Hi, Hj.
  destruct Hi as [Hi Hc1]. destruct Hj as [Hj Hc2].
  apply decimal_value in D1, D2, F1, F2.
  assert (i = j /\ code d1 = code e1 /\ code d2 = code e2)
    as [-> [G1 G2]] by lia.
  apply code_injective in G1, G2. subst e1 e2.
  exists c1, c2, d1, d2. repeat split. congruence.
Qed.

Lemma eco_to_num_injective_witness :
  exists c1 c2 d1 d2,
    "b07" = String c1 (String d1 (String d2 EmptyString))
    /\ "B07" = String c2 (String d1 (String d2 EmptyString))
    /\ upper_char c1 = upper_char c2.
Proof.
  exact (eco_to_num_injective "b07" "B07" 2007 eq_refl eq_refl eq_refl eq_refl).
Defined.

(** X3.  A well-formed code whose key is in one of the gaps of the table
    (A40-A44, A47-A55, B00, C20-C24, C43, C46-C49, D00-D05, E00, E10-E11)
    is classified by the opening name, as an absent code is; for every
    other well-formed code the opening name plays no part. *)
Theorem gap_codes_by_name (eco : string) (n : Z) :
  _eco_to_num eco = Ok (Some n) ->
  (in_gap n = true ->
   forall opening,
     family_from_eco_or_name (Some eco) opening
     = family_from_eco_or_name None opening)
  /\ (in_gap n = false ->
      forall opening1 opening2,
        family_from_eco_or_name (Some eco) opening1
        = family_from_eco_or_name (Some eco) opening2).
Proof.
  intros H. pose proof (key_in_gap _ _ H) as Hgap.
  split; intros Hn; intros;
    unfold family_from_eco_or_name, eco_path;
    rewrite (eco_to_num_truthy _ _ H), H; cbn [bind];
    rewrite scan_ranges_keys; cbn [bind].
  - now rewrite (proj1 Hgap Hn).
  - destruct (first_key n eco_keys); [reflexivity | ].
    rewrite (proj2 Hgap eq_refl) in Hn. discriminate.
Qed.

Lemma gap_codes_by_name_witness :
  family_from_eco_or_name (Some "D02") (Some "London System")
  = family_from_eco_or_name None (Some "London System").
Proof.
  exact (proj1 (gap_codes_by_name "D02" 4002 eq_refl) eq_refl
           (Some "London System")).
Defined.

Section NameCase.

Lemma lower_char_idempotent (c : ascii) :
  lower_char (lower_char c) = lower_char c.
Proof.
  destruct c as [[] [] [] [] [] [] [] []]; reflexivity.
Qed.

Lemma ci_eqb_lowered (c d : ascii) :
  Re.ci_eqb c (lower_char d) = Re.ci_eqb c d.
Proof.
  unfold Re.ci_eqb. now rewrite lower_char_idempotent.
Qed.

Lemma ci_mem_lowered (d : ascii) (cs : string) :
  Re.ci_mem (lower_char d) cs = Re.ci_mem d cs.
Proof.
  induction cs as [ | c cs IH]; cbn [Re.ci_mem]; [reflexivity | ].
  now rewrite ci_eqb_lowered, IH.
Qed.

(** A pattern sees of a string no more than its lower case. *)
Lemma match_k_lowered (r : Re.regex) :
  forall (s : string) (k k' : string -> bool),
    (forall t, k' (lower t) = k t) ->
    Re.match_k r (lower s) k' = Re.match_k r s k.
Proof.
  induction r as [ | c | cs | r IH | r1 IH1 r2 IH2 | r1 IH1 r2 IH2];
    intros s k k' Hk; cbn [Re.match_k].
  - apply Hk.
  - destruct s as [ | d s]; cbn [lower]; [reflexivity | ].
    now rewrite ci_eqb_lowered, Hk.
  - destruct s as [ | d s]; cbn [lower]; [reflexivity | ].
    now rewrite ci_mem_lowered, Hk.
  - now rewrite (IH s k k' Hk), Hk.
  - apply IH1. intros t. now apply IH2.
  - now rewrite (IH1 s k k' Hk), (IH2 s k k' Hk).
Qed.

Lemma match_lowered (r : Re.regex) (s : string) :
  Re.match_k r (lower s) (fun _ => true) = Re.match_k r s (fun _ => true).
Proof.
  now apply match_k_lowered.
Qed.

Lemma search_lowered (r : Re.regex) (s : string) :
  Re.search r (lower s) = Re.search r s.
Proof.
  induction s as [ | d s IH].
  - reflexivity.
  - cbn [Re.search]. rewrite <- IH, <- (match_lowered r (String d s)).
    reflexivity.
Qed.

Lemma scan_rules_lowered (rules : list (Re.regex * string)) (s : string) :
  scan_rules (lower s) rules = scan_rules s rules.
Proof.
  induction rules as [ | [rx fam] rest IH]; cbn [scan_rules]; [reflexivity | ].
  now rewrite search_lowered, IH.
Qed.

Lemma name_path_lowered (s : string) :
  name_path (Some (lower s)) = name_path (Some s).
Proof.
  unfold name_path. destruct s as [ | d s]; [reflexivity | ].
  cbn [lower truthy]. change (String (lower_char d) (lower s))
    with (lower (String d s)).
  apply scan_rules_lowered.
Qed.

End NameCase.

(** X4.  An opening name of characters U+0000..U+00FF is read without
    regard to case: two such names with the same lower case are classified
    alike, with any code. *)
Theorem name_case_insensitive (eco : option string) (name1 name2 : string) :
  lower name1 = lower name2 ->
  family_from_eco_or_name eco (Some name1)
  = family_from_eco_or_name eco (Some name2).
Proof.
  intros H. unfold family_from_eco_or_name.
  now rewrite <- (name_path_lowered name1), <- (name_path_lowered name2), H.
Qed.

Lemma name_case_insensitive_witness :
  family_from_eco_or_name None (Some "KING'S INDIAN attack")
  = family_from_eco_or_name None (Some "King's Indian Attack").
Proof.
  exact (name_case_insensitive None "KING'S INDIAN attack"
           "King's Indian Attack" eq_refl).
Defined.

Section Raising.

Lemma int_raises (d1 d2 : ascii) (e : exn) :
  int (String d1 (String d2 EmptyString)) = Raise e <->
  isdecimal d1 = false \/ isdecimal d2 = false.
Proof.
  unfold int. cbn [truthy digits_value]. destruct e.
  destruct (isdecimal d1), (isdecimal d2); split; intros H; auto;
    try discriminate H; destruct H as [H | H]; discriminate H.
Qed.

Lemma superscript_iff (d : ascii) :
  isdigit d = true ->
  superscript d = true <-> isdecimal d = false.
Proof.
  unfold superscript. intros ->. now destruct (isdecimal d).
Qed.

(** The conversion raises on a well-shaped code with a superscript digit,
    and on nothing else. *)
Lemma eco_to_num_raises (eco : string) (e : exn) :
  _eco_to_num eco = Raise e <->
  exists c d1 d2,
    eco = String c (String d1 (String d2 EmptyString))
    /\ contains_char "ABCDE" (upper_char c) = true
    /\ isdigit d1 = true /\ isdigit d2 = true
    /\ (superscript d1 = true \/ superscript d2 = true).
Proof.
  split.
  - unfold _eco_to_num.
    destruct (negb (truthy eco) || negb (len eco =? 3)); [discriminate | ].
    destruct eco as [ | c [ | d1 [ | d2 [ | ? ?]]]]; try discriminate.
    destruct (contains_char "ABCDE" (upper_char c)) eqn:Hc; [ | discriminate].
    destruct (isdigit d1) eqn:D1; [ | discriminate].
    destruct (isdigit d2) eqn:D2; [ | discriminate].
    cbn [negb orb].
    destruct (index_of_member _ _ Hc) as [i ->]. cbn [bind].
    destruct (int (String d1 (String d2 EmptyString))) as [v | e'] eqn:Hint;
      [discriminate | ].
    intros _. apply int_raises in Hint.
    exists c, d1, d2. repeat split; auto.
    destruct Hint as [H | H]; [left | right]; now apply superscript_iff.
  - intros [c [d1 [d2 [-> [Hc [D1 [D2 Hsup]]]]]]].
    unfold _eco_to_num. cbn [truthy negb len String.length orb].
    rewrite Hc, D1, D2. cbn [negb orb].
    destruct (index_of_member _ _ Hc) as [i ->]. cbn [bind].
    assert (isdecimal d1 = false \/ isdecimal d2 = false) as Hdec
        by (destruct Hsup as [H | H]; [left | right];
            now apply superscript_iff).
    apply (int_raises d1 d2 e) in Hdec. now rewrite Hdec.
Qed.

End Raising.

(** X5.  The classifier raises exactly on the three-character codes with
    a letter of A-E in either case and two characters that pass [isdigit],
    one of them at least not passing [isdecimal], as a superscript digit;
    the opening name plays no part in it. *)
Theorem classifier_raises_iff (eco opening : option string) (e : exn) :
  family_from_eco_or_name eco opening = Raise e <->
  exists c d1 d2,
    eco = Some (String c (String d1 (String d2 EmptyString)))
    /\ contains_char "ABCDE" (upper_char c) = true
    /\ isdigit d1 = true /\ isdigit d2 = true
    /\ (isdecimal d1 = false \/ isdecimal d2 = false).
Proof.
  split.
  - unfold family_from_eco_or_name, eco_path.
    destruct eco as [code | ];
      [ | cbn [bind]; destruct (name_path opening); discriminate].
    destruct (truthy code);
      [ | cbn [bind]; destruct (name_path opening); discriminate].
    destruct (_eco_to_num code) as [[n | ] | e'] eqn:Hnum; cbn [bind].
    + rewrite scan_ranges_keys. cbn [bind].
      destruct (first_key n eco_keys); [discriminate | ].
      destruct (name_path opening); discriminate.
    + destruct (name_path opening); discriminate.
    + intros _. apply eco_to_num_raises in Hnum.
      destruct Hnum as [c [d1 [d2 [-> [Hc [D1 [D2 Hsup]]]]]]].
      exists c, d1, d2. repeat split; auto.
      destruct Hsup as [H | H]; [left | right];
        now apply superscript_iff in H.
  - intros [c [d1 [d2 [-> [Hc [D1 [D2 Hdec]]]]]]].
    assert (_eco_to_num (String c (String d1 (String d2 EmptyString)))
            = Raise e) as Hnum.
    { apply eco_to_num_raises. exists c, d1, d2. repeat split; auto.
      destruct Hdec as [H | H]; [left | right];
        now apply superscript_iff. }
    unfold family_from_eco_or_name, eco_path. cbn [truthy].
    now rewrite Hnum.
Qed.

(* ================================================================= *)
(** * More on the perspective resolver *)

Section Perspective.

Lemma opt_eqb_eq (a : option string) (s : string) :
  opt_eqb a (Some s) = true -> a = Some s.
Proof.
  destruct a as [x | ]; cbn [opt_eqb]; [ | discriminate].
  intros H. apply String.eqb_eq in H. now subst.
Qed.

(** The cases of an outcome: a draw, a win of white, a win of black, or
    none of the three. *)
Lemma outcome_cases (res : option string) :
  (res = Some "1/2-1/2" \/ res = Some "1-0" \/ res = Some "0-1")
  \/ (opt_eqb res (Some "1/2-1/2") = false
      /\ opt_eqb res (Some "1-0") = false
      /\ opt_eqb res (Some "0-1") = false).
Proof.
  destruct res as [s | ]; [ | right; repeat split].
  cbn [opt_eqb].
  destruct (String.eqb_spec s "1/2-1/2") as [-> | Hd]; [left; auto | ].
  destruct (String.eqb_spec s "1-0") as [-> | H10]; [left; auto | ].
  destruct (String.eqb_spec s "0-1") as [-> | H01]; [left; auto | ].
  right. repeat split.
Qed.

(** A name compared as [_pov] does is the name of the column, or the
    column is NULL and the user name empty. *)
Lemma or_empty_named (column : option string) (user : string) :
  lower (or_empty column) = user ->
  named column user = true \/ (column = None /\ user = EmptyString).
Proof.
  destruct column as [name | ]; cbn [or_empty named]; intros H.
  - left. apply String.eqb_eq. now destruct name.
  - right. split; [reflexivity | ]. now rewrite <- H.
Qed.

Lemma players_named (white black : option string) (user : string) :
  lower (or_empty white) = user \/ lower (or_empty black) = user ->
  named white user = true \/ named black user = true
  \/ (user = EmptyString /\ (white = None \/ black = None)).
Proof.
  intros [H | H]; apply or_empty_named in H; destruct H as [H | [H1 H2]];
    auto.
Qed.

End Perspective.

(** X6.  [_pov] gives a result only when the user name is the white or the
    black name of the game up to case, or is empty while a name of the game
    is missing (a missing name is compared as the empty string), and the
    game has an outcome: "draw" for the outcome "1/2-1/2"; "win" when the
    test on the white name holds and the outcome is "1-0", or the test on
    the black name holds and it is "0-1"; "loss" when the outcome is "1-0"
    and the test on the white name fails, or "0-1" and the test on the
    black name fails.  So a user for whom both tests hold never gets a
    loss. *)
Theorem pov_inversion (self : AgentQueryService.t) (g : GameRow.t)
  (r : string) :
  _pov self g = Some r ->
  (named (GameRow.white g) (username self) = true
   \/ named (GameRow.black g) (username self) = true
   \/ (username self = EmptyString
       /\ (GameRow.white g = None \/ GameRow.black g = None)))
  /\ (plays_white self g = true \/ plays_black self g = true)
  /\ ((r = "draw" /\ GameRow.result g = Some "1/2-1/2")
      \/ (r = "win"
          /\ ((plays_white self g = true /\ GameRow.result g = Some "1-0")
              \/ (plays_black self g = true
                  /\ GameRow.result g = Some "0-1")))
      \/ (r = "loss"
          /\ ((plays_white self g = false /\ GameRow.result g = Some "1-0")
              \/ (plays_black self g = false
                  /\ GameRow.result g = Some "0-1")))).
Proof.
  intros H.
  assert ((plays_white self g = true \/ plays_black self g = true)
          /\ ((r = "draw" /\ GameRow.result g = Some "1/2-1/2")
              \/ (r = "win"
                  /\ ((plays_white self g = true
                       /\ GameRow.result g = Some "1-0")
                      \/ (plays_black self g = true
                          /\ GameRow.result g = Some "0-1")))
              \/ (r = "loss"
                  /\ ((plays_white self g = false
                       /\ GameRow.result g = Some "1-0")
                      \/ (plays_black self g = false
                          /\ GameRow.result g = Some "0-1"))))) as [Hp Hr].
  { revert H. unfold _pov, plays_white, plays_black.
    destruct (truthy_opt (GameRow.result g)); [ | discriminate]. cbn [negb].
    destruct (String.eqb (lower (or_empty (GameRow.white g))) (username self))
      eqn:Hw;
      destruct (String.eqb (lower (or_empty (GameRow.black g))) (username self))
        eqn:Hb; cbn [orb negb]; try discriminate;
      destruct (outcome_cases (GameRow.result g))
        as [[Hres | [Hres | Hres]] | [Hd [H10 H01]]];
      try (rewrite Hres; cbn; intros H; injection H as <-; intuition congruence);
      rewrite Hd, H10, H01; discriminate. }
  split; [ | split; assumption].
  apply players_named. unfold plays_white, plays_black in Hp.
  destruct Hp as [Hp | Hp]; apply String.eqb_eq in Hp; auto.
Qed.

Lemma pov_inversion_witness :
  named (GameRow.white (row 1 (Some "ANN") (Some "Bob") (Some "0-1") None None))
    (username (new "Ann")) = true
  \/ named (GameRow.black (row 1 (Some "ANN") (Some "Bob") (Some "0-1") None None))
       (username (new "Ann")) = true
  \/ (username (new "Ann") = EmptyString
      /\ (GameRow.white (row 1 (Some "ANN") (Some "Bob") (Some "0-1") None None)
          = None
          \/ GameRow.black (row 1 (Some "ANN") (Some "Bob") (Some "0-1") None None)
             = None)).
Proof.
  exact (proj1 (pov_inversion (new "Ann")
                  (row 1 (Some "ANN") (Some "Bob") (Some "0-1") None None)
                  "loss" eq_refl)).
Defined.

(** X7.  The two players of a game, their names different up to case, get
    opposite results: a win of the one is a loss of the other, a draw of
    the one a draw of the other, and the one has no result exactly when the
    other has none. *)
Theorem pov_opposite (u v : string) (g : GameRow.t) :
  lower (or_empty (GameRow.white g)) = lower u ->
  lower (or_empty (GameRow.black g)) = lower v ->
  lower u <> lower v ->
  (_pov (new u) g = Some "win" <-> _pov (new v) g = Some "loss")
  /\ (_pov (new u) g = Some "loss" <-> _pov (new v) g = Some "win")
  /\ (_pov (new u) g = Some "draw" <-> _pov (new v) g = Some "draw")
  /\ (_pov (new u) g = None <-> _pov (new v) g = None).
Proof.
  intros Hw Hb Hneq. unfold _pov, new. cbn [username].
  rewrite Hw, Hb, !String.eqb_refl.
  rewrite (proj2 (String.eqb_neq _ _) Hneq).
  rewrite (proj2 (String.eqb_neq (lower v) (lower u)))
    by (intros H; now apply Hneq).
  destruct (truthy_opt (GameRow.result g)); cbn [negb orb];
    [ | repeat split; intros H; (reflexivity || discriminate H)].
  destruct (outcome_cases (GameRow.result g))
    as [[Hres | [Hres | Hres]] | [Hd [H10 H01]]];
    try (rewrite Hres; cbn);
    try rewrite Hd, H10, H01;
    repeat split; intros H; (reflexivity || discriminate H).
Qed.

Lemma pov_opposite_witness :
  _pov (new "Bob") (row 2 (Some "Bob") (Some "Ann") (Some "0-1") None None)
  = Some "loss"
  <-> _pov (new "ANN") (row 2 (Some "Bob") (Some "Ann") (Some "0-1") None None)
      = Some "win".
Proof.
  refine (proj1 (proj2 (pov_opposite "Bob" "ANN"
            (row 2 (Some "Bob") (Some "Ann") (Some "0-1") None None)
            eq_refl eq_refl _))).
  discriminate.
Defined.

(** X8.  The predicates of [games_by_result] agree with [_pov] unless the
    user name equals both the white and the black name of the game in
    lower case, a name that is missing being compared as the empty string
    (so the exception takes in the empty user name on a game with both
    names missing): [is_win] holds exactly when [_pov] says "win",
    [is_loss] exactly when it says "loss"; and a draw for [_pov] is a draw
    for [is_draw]. *)
Theorem analyzer_agrees_with_pov (name : string) (r : GameRow.t) :
  plays_white (new name) r && plays_black (new name) r = false ->
  GameAnalyzer.is_win (lower name) r = opt_eqb (_pov (new name) r) (Some "win")
  /\ GameAnalyzer.is_loss (lower name) r
     = opt_eqb (_pov (new name) r) (Some "loss")
  /\ (_pov (new name) r = Some "draw" -> GameAnalyzer.is_draw r = true).
Proof.
  unfold plays_white, plays_black, GameAnalyzer.is_win, GameAnalyzer.is_loss,
    GameAnalyzer.is_draw, _pov, new.
  cbn [username].
  destruct (truthy_opt (GameRow.result r)); cbn [negb];
    [ | intros _; repeat split; discriminate].
  destruct (String.eqb (lower (or_empty (GameRow.white r))) (lower name));
    destruct (String.eqb (lower (or_empty (GameRow.black r))) (lower name));
    cbn [andb orb negb]; intros Hboth; try discriminate Hboth;
    destruct (outcome_cases (GameRow.result r))
      as [[Hres | [Hres | Hres]] | [Hd [H10 H01]]];
    try (rewrite Hres; cbn; repeat split; auto; discriminate);
    rewrite ?Hd, ?H10, ?H01; repeat split; auto; discriminate.
Qed.

Lemma analyzer_agrees_with_pov_witness :
  GameAnalyzer.is_win (lower "Ann")
    (row 2 (Some "Bob") (Some "Ann") (Some "0-1") None None)
  = opt_eqb (_pov (new "Ann")
               (row 2 (Some "Bob") (Some "Ann") (Some "0-1") None None))
      (Some "win").
Proof.
  exact (proj1 (analyzer_agrees_with_pov "Ann"
                  (row 2 (Some "Bob") (Some "Ann") (Some "0-1") None None)
                  eq_refl)).
Defined.

(** X9.  For a user who is both players of a game that black won, the two
    disagree: [_pov] says "win", [is_win] says no and [is_loss] yes. *)
Theorem analyzer_differs_on_self_play (name : string) (r : GameRow.t) :
  plays_white (new name) r = true ->
  plays_black (new name) r = true ->
  GameRow.result r = Some "0-1" ->
  _pov (new name) r = Some "win"
  /\ GameAnalyzer.is_win (lower name) r = false
  /\ GameAnalyzer.is_loss (lower name) r = true.
Proof.
  unfold plays_white, plays_black, GameAnalyzer.is_win, GameAnalyzer.is_loss,
    _pov, new.
  cbn [username]. intros -> -> ->. repeat split.
Qed.

Lemma analyzer_differs_on_self_play_witness :
  _pov (new "Ann") (row 4 (Some "ann") (Some "ANN") (Some "0-1") None None)
  = Some "win"
  /\ GameAnalyzer.is_win (lower "Ann")
       (row 4 (Some "ann") (Some "ANN") (Some "0-1") None None) = false
  /\ GameAnalyzer.is_loss (lower "Ann")
       (row 4 (Some "ann") (Some "ANN") (Some "0-1") None None) = true.
Proof.
  exact (analyzer_differs_on_self_play "Ann"
           (row 4 (Some "ann") (Some "ANN") (Some "0-1") None None)
           eq_refl eq_refl eq_refl).
Defined.

(* ================================================================= *)
(** * More on the query engine *)

Section Filters.

Lemma passes_iff (f v : option string) :
  passes f v = true <-> truthy_opt f && negb (opt_eqb v f) = false.
Proof.
  unfold passes. destruct (truthy_opt f), (opt_eqb v f); cbn; intuition.
Qed.

Lemma row_to_dict_fields (self : AgentQueryService.t) (g : GameRow.t)
  (d : GameView.t) :
  _row_to_dict self g = Ok d ->
  GameView.id d = GameRow.id g
  /\ GameView.white d = GameRow.white g
  /\ GameView.black d = GameRow.black g
  /\ GameView.my_color d = _my_color self g
  /\ GameView.pov_result d = _pov self g
  /\ family_from_eco_or_name (GameRow.eco g) (GameRow.opening g)
     = Ok (GameView.family d).
Proof.
  unfold _row_to_dict. intros H. apply bind_ok in H.
  destruct H as [fam [Hfam H]]. injection H as <-.
  repeat split; try reflexivity. exact Hfam.
Qed.

(** What the loop keeps went through its three filters. *)
Lemma filter_rows_sound (self : AgentQueryService.t)
  (family color result : option string) (rows : list GameRow.t) :
  forall out d,
    filter_rows self family color result rows = Ok out ->
    In d out ->
    exists g,
      In g rows /\ _row_to_dict self g = Ok d
      /\ passes color (_my_color self g) = true
      /\ passes result (_pov self g) = true
      /\ passes_family family (GameView.family d) = true.
Proof.
  induction rows as [ | h rest IH]; intros out d Hout Hd;
    cbn [filter_rows] in Hout.
  - injection Hout as <-. destruct Hd.
  - destruct (truthy_opt color && _) eqn:Hc.
    { destruct (IH _ _ Hout Hd) as [g [Hg H]]. exists g. split; [now right | auto]. }
    destruct (truthy_opt result && _) eqn:Hr.
    { destruct (IH _ _ Hout Hd) as [g [Hg H]]. exists g. split; [now right | auto]. }
    apply bind_ok in Hout. destruct Hout as [keep [Hkeep Hout]].
    destruct keep.
    2:{ destruct (IH _ _ Hout Hd) as [g [Hg H]]. exists g.
        split; [now right | auto]. }
    apply bind_ok in Hout. destruct Hout as [d0 [Hd0 Hout]].
    apply bind_ok in Hout. destruct Hout as [out' [Hrest Hout]].
    injection Hout as <-. destruct Hd as [<- | Hd].
    + exists h. split; [now left | ]. split; [assumption | ].
      apply passes_iff in Hc, Hr. repeat split; try assumption.
      unfold passes_family.
      destruct (truthy_opt family); [ | reflexivity]. cbn [negb orb].
      apply bind_ok in Hkeep. destruct Hkeep as [fam [Hfam Hkeep]].
      injection Hkeep as Hkeep.
      destruct (row_to_dict_fields _ _ _ Hd0) as [_ [_ [_ [_ [_ Hfam']]]]].
      rewrite Hfam in Hfam'. injection Hfam' as <-. assumption.
    + destruct (IH _ _ Hrest Hd) as [g [Hg H]]. exists g.
      split; [now right | auto].
Qed.

(** What went through the three filters is kept. *)
Lemma filter_rows_complete (self : AgentQueryService.t)
  (family color result : option string) (rows : list GameRow.t) :
  forall out g d,
    filter_rows self family color result rows = Ok out ->
    In g rows ->
    _row_to_dict self g = Ok d ->
    passes color (_my_color self g) = true ->
    passes result (_pov self g) = true ->
    passes_family family (GameView.family d) = true ->
    In d out.
Proof.
  induction rows as [ | h rest IH]; intros out g d Hout Hg Hd Hc Hr Hf;
    [destruct Hg | ].
  cbn [filter_rows] in Hout. destruct Hg as [-> | Hg].
  - apply passes_iff in Hc, Hr. rewrite Hc, Hr in Hout.
    destruct (row_to_dict_fields _ _ _ Hd) as [_ [_ [_ [_ [_ Hfam]]]]].
    rewrite Hfam in Hout. unfold passes_family in Hf.
    destruct (truthy_opt family); cbn [bind negb orb] in Hout, Hf.
    + rewrite Hf, Hd in Hout. cbn [bind] in Hout.
      apply bind_ok in Hout. destruct Hout as [out' [_ Hout]].
      injection Hout as <-. now left.
    + rewrite Hd in Hout. cbn [bind] in Hout.
      apply bind_ok in Hout. destruct Hout as [out' [_ Hout]].
      injection Hout as <-. now left.
  - destruct (truthy_opt color && _); [eapply IH; eauto | ].
    destruct (truthy_opt result && _); [eapply IH; eauto | ].
    apply bind_ok in Hout. destruct Hout as [keep [_ Hout]].
    destruct keep; [ | eapply IH; eauto].
    apply bind_ok in Hout. destruct Hout as [d0 [_ Hout]].
    apply bind_ok in Hout. destruct Hout as [out' [Hrest Hout]].
    injection Hout as <-. right. eapply IH; eauto.
Qed.

Lemma insert_by_in le (g x : GameRow.t) rows :
  x = g \/ In x rows -> In x (Sql.insert_by le g rows).
Proof.
  induction rows as [ | h rest IH]; cbn [Sql.insert_by In].
  - intros [-> | []]. now left.
  - destruct (le _ _); cbn [In].
    + intros [-> | [-> | H]]; auto.
    + intros [-> | [-> | H]]; auto.
Qed.

Lemma order_by_id_in asc (x : GameRow.t) rows :
  In x rows -> In x (Sql.order_by_id asc rows).
Proof.
  unfold Sql.order_by_id.
  induction rows as [ | g rest IH]; cbn [fold_right In]; [auto | ].
  intros [-> | H]; apply insert_by_in; auto.
Qed.

Lemma select_rows_in self table opening_like eco_prefix order_dir g :
  In g (select_rows self table opening_like eco_prefix order_dir)
  <-> In g table /\ candidate self g = true
      /\ opening_filter opening_like g = true
      /\ eco_filter eco_prefix g = true.
Proof.
  unfold select_rows. split.
  - intros H. apply in_order_by_id in H. apply filter_In in H.
    destruct H as [Hin H]. apply andb_true_iff in H. destruct H as [H He].
    apply andb_true_iff in H. destruct H as [Hc Ho]. auto.
  - intros [Hin [Hc [Ho He]]]. apply order_by_id_in. apply filter_In.
    split; [assumption | ]. now rewrite Hc, Ho, He.
Qed.

Lemma in_slice {A : Type} (l : list A) (a b : Z) (x : A) :
  In x (slice l a b) -> In x l.
Proof.
  unfold slice. intros H.
  rewrite <- (firstn_skipn (Z.to_nat (clamp (Z.of_nat (List.length l)) a)) l).
  apply in_or_app. right.
  match type of H with
  | In _ (firstn ?n ?l') => rewrite <- (firstn_skipn n l')
  end.
  apply in_or_app. now left.
Qed.

Lemma slice_length {A : Type} (l : list A) (a n : Z) :
  0 <= n -> Z.of_nat (List.length (slice l a (a + n))) <= n.
Proof.
  intros Hn. unfold slice.
  pose proof (firstn_le_length
                (Z.to_nat (clamp (Z.of_nat (List.length l)) (a + n)
                           - clamp (Z.of_nat (List.length l)) a))
                (skipn (Z.to_nat (clamp (Z.of_nat (List.length l)) a)) l))
    as Hlen.
  assert (clamp (Z.of_nat (List.length l)) (a + n)
          - clamp (Z.of_nat (List.length l)) a <= n) as Hclamp.
  { unfold clamp.
    destruct (Z.ltb_spec (a + n) 0), (Z.ltb_spec a 0); lia. }
  lia.
Qed.

End Filters.

(** X10.  Every game [games] returns is the view of a stored row that is
    a candidate for the user name, that went through the opening and the
    ECO filter of the statement, and whose colour, result and family are
    those of each filter given. *)
Theorem games_sound (self : AgentQueryService.t) (table : list GameRow.t)
  (opening_like eco_prefix family color result : option string)
  (limit offset : Z) (order_dir : string) (out : list GameView.t)
  (d : GameView.t) :
  games self table opening_like eco_prefix family color result limit offset
    order_dir = Ok out ->
  In d out ->
  exists g,
    In g table /\ _row_to_dict self g = Ok d
    /\ candidate self g = true
    /\ opening_filter opening_like g = true
    /\ eco_filter eco_prefix g = true
    /\ passes color (GameView.my_color d) = true
    /\ passes result (GameView.pov_result d) = true
    /\ passes_family family (GameView.family d) = true.
Proof.
  unfold games. intros H Hd. apply bind_ok in H.
  destruct H as [all [Hall H]]. injection H as <-.
  apply in_slice in Hd.
  destruct (filter_rows_sound _ _ _ _ _ _ _ Hall Hd)
    as [g [Hg [Hdict [Hc [Hr Hf]]]]].
  apply select_rows_in in Hg. destruct Hg as [Hin [Hcand [Ho He]]].
  destruct (row_to_dict_fields _ _ _ Hdict) as [_ [_ [_ [Hcol [Hpov _]]]]].
  exists g. rewrite Hcol, Hpov. repeat split; assumption.
Qed.

Lemma games_sound_witness :
  exists g,
    In g sample_table
    /\ _row_to_dict (new "ann") g
       = _row_to_dict (new "ann")
           (row 2 (Some "Bob") (Some "Ann") (Some "0-1") (Some "C60") None)
    /\ candidate (new "ann") g = true
    /\ opening_filter None g = true
    /\ eco_filter None g = true
    /\ passes (Some "black") (Some "black") = true
    /\ passes None (Some "win") = true
    /\ passes_family None "Ruy Lopez" = true.
Proof.
  refine (games_sound (new "ann") sample_table None None None (Some "black")
            None 50 0 "desc" _ _ eq_refl _).
  left. reflexivity.
Defined.

(** X11.  With offset 0 and a limit no smaller than the number of stored
    rows, [games], when it raises nothing, returns the view of every
    stored row that is a candidate, goes through the opening and the ECO
    filter, and has the colour, the result and the family of each filter
    given. *)
Theorem games_complete (self : AgentQueryService.t) (table : list GameRow.t)
  (opening_like eco_prefix family color result : option string)
  (limit : Z) (order_dir : string) (out : list GameView.t)
  (g : GameRow.t) (d : GameView.t) :
  Z.of_nat (List.length table) <= limit ->
  games self table opening_like eco_prefix family color result limit 0
    order_dir = Ok out ->
  In g table ->
  candidate self g = true ->
  opening_filter opening_like g = true ->
  eco_filter eco_prefix g = true ->
  _row_to_dict self g = Ok d ->
  passes color (GameView.my_color d) = true ->
  passes result (GameView.pov_result d) = true ->
  passes_family family (GameView.family d) = true ->
  In d out.
Proof.
  unfold games. intros Hlimit H Hin Hcand Ho He Hdict Hc Hr Hf.
  apply bind_ok in H. destruct H as [all [Hall H]]. injection H as <-.
  pose proof (select_rows_length self table opening_like eco_prefix order_dir)
    as Hsel.
  pose proof (filter_rows_length _ _ _ _ _ _ Hall) as Hlen.
  assert (slice all 0 (0 + limit) = all) as Hwhole
      by (apply slice_whole; lia).
  rewrite Z.add_0_l in Hwhole. rewrite ?Z.add_0_l. rewrite Hwhole.
  destruct (row_to_dict_fields _ _ _ Hdict) as [_ [_ [_ [Hcol [Hpov _]]]]].
  rewrite Hcol in Hc. rewrite Hpov in Hr.
  eapply filter_rows_complete; eauto.
  apply select_rows_in. auto.
Qed.

Lemma games_complete_witness :
  exists d out,
    _row_to_dict (new "ann")
      (row 1 (Some "Ann") (Some "Bob") (Some "1-0") (Some "B90") None) = Ok d
    /\ games (new "ann") sample_table None None (Some "sicilian defense")
         None (Some "win") 3 0 "desc" = Ok out
    /\ In d out.
Proof.
  eexists. eexists. split; [reflexivity | ]. split; [reflexivity | ].
  apply (games_complete (new "ann") sample_table None None
           (Some "sicilian defense") None (Some "win") 3 "desc" _
           (row 1 (Some "Ann") (Some "Bob") (Some "1-0") (Some "B90") None) _);
    try reflexivity.
  left. reflexivity.
Defined.

(** X12.  [games] never returns more games than a limit that is not
    negative, whatever the offset. *)
Theorem games_at_most_limit (self : AgentQueryService.t)
  (table : list GameRow.t)
  (opening_like eco_prefix family color result : option string)
  (limit offset : Z) (order_dir : string) (out : list GameView.t) :
  0 <= limit ->
  games self table opening_like eco_prefix family color result limit offset
    order_dir = Ok out ->
  Z.of_nat (List.length out) <= limit
  /\ (List.length out <= List.length table)%nat.
Proof.
  unfold games. intros Hlimit H. apply bind_ok in H.
  destruct H as [all [Hall H]]. injection H as <-.
  split; [now apply slice_length | ].
  pose proof (select_rows_length self table opening_like eco_prefix order_dir)
    as Hsel.
  pose proof (filter_rows_length _ _ _ _ _ _ Hall) as Hlen.
  unfold slice. rewrite length_firstn, length_skipn. lia.
Qed.

Lemma games_at_most_limit_witness :
  exists out,
    games (new "ann") sample_table None None None None None 2 (-2) "asc"
    = Ok out
    /\ Z.of_nat (List.length out) <= 2.
Proof.
  eexists. split; [reflexivity | ].
  refine (proj1 (games_at_most_limit (new "ann") sample_table None None None
                   None None 2 (-2) "asc" _ _ eq_refl)).
  lia.
Defined.

(* ----------------------------------------------------------------- *)
(** *** The order of the games returned *)

Section Ordering.

Variable ascending : bool.

Let le : Z -> Z -> bool := if ascending then Z.leb else Z.geb.

Lemma le_order (a b : Z) : le a b = true <-> id_order ascending a b.
Proof.
  unfold le, id_order. destruct ascending.
  - apply Z.leb_le.
  - rewrite Z.geb_leb. apply Z.leb_le.
Qed.

Lemma id_order_trans (a b c : Z) :
  id_order ascending a b -> id_order ascending b c -> id_order ascending a c.
Proof.
  unfold id_order. destruct ascending; lia.
Qed.

Lemma id_order_total (a b : Z) :
  le a b = false -> id_order ascending b a.
Proof.
  unfold le, id_order. destruct ascending.
  - rewrite Z.leb_gt. lia.
  - rewrite Z.geb_leb, Z.leb_gt. lia.
Qed.

Lemma insert_by_sorted (g : GameRow.t) (rows : list GameRow.t) :
  StronglySorted (id_order ascending) (map GameRow.id rows) ->
  StronglySorted (id_order ascending)
    (map GameRow.id (Sql.insert_by le g rows)).
Proof.
  induction rows as [ | h rest IH]; intros Hs; cbn [Sql.insert_by map].
  - repeat constructor.
  - apply StronglySorted_inv in Hs. destruct Hs as [Hrest Hall].
    destruct (le (GameRow.id g) (GameRow.id h)) eqn:Hle; cbn [map].
    + apply le_order in Hle. constructor.
      * now constructor.
      * constructor; [assumption | ].
        eapply Forall_impl; [ | exact Hall].
        intros x Hx. eapply id_order_trans; eauto.
    + apply id_order_total in Hle. constructor; [now apply IH | ].
      apply Forall_forall. intros x Hx. apply in_map_iff in Hx.
      destruct Hx as [r [<- Hr]]. apply in_insert_by in Hr.
      destruct Hr as [-> | Hr]; [assumption | ].
      apply (proj1 (Forall_forall _ _) Hall). now apply in_map.
Qed.

Lemma order_by_id_sorted (rows : list GameRow.t) :
  StronglySorted (id_order ascending)
    (map GameRow.id (Sql.order_by_id ascending rows)).
Proof.
  unfold Sql.order_by_id. fold le.
  induction rows as [ | g rest IH]; cbn [fold_right map];
    [constructor | now apply insert_by_sorted].
Qed.

Lemma filter_rows_sorted (self : AgentQueryService.t)
  (family color result : option string) (rows : list GameRow.t) :
  forall out,
    StronglySorted (id_order ascending) (map GameRow.id rows) ->
    filter_rows self family color result rows = Ok out ->
    StronglySorted (id_order ascending) (map GameView.id out).
Proof.
  induction rows as [ | h rest IH]; intros out Hs Hout;
    cbn [filter_rows] in Hout.
  - injection Hout as <-. constructor.
  - cbn [map] in Hs. apply StronglySorted_inv in Hs.
    destruct Hs as [Hrest Hall].
    destruct (truthy_opt color && _); [now apply IH | ].
    destruct (truthy_opt result && _); [now apply IH | ].
    apply bind_ok in Hout. destruct Hout as [keep [_ Hout]].
    destruct keep; [ | now apply IH].
    apply bind_ok in Hout. destruct Hout as [d0 [Hd0 Hout]].
    apply bind_ok in Hout. destruct Hout as [out' [Hout' Hout]].
    injection Hout as <-. cbn [map]. constructor; [now apply IH | ].
    apply Forall_forall. intros x Hx. apply in_map_iff in Hx.
    destruct Hx as [d [<- Hd]].
    destruct (filter_rows_sound _ _ _ _ _ _ _ Hout' Hd) as [g [Hg [Hdict _]]].
    destruct (row_to_dict_fields _ _ _ Hdict) as [-> _].
    destruct (row_to_dict_fields _ _ _ Hd0) as [-> _].
    apply (proj1 (Forall_forall _ _) Hall). now apply in_map.
Qed.

Lemma sorted_app {A : Type} (R : A -> A -> Prop) (l1 l2 : list A) :
  StronglySorted R (l1 ++ l2) -> StronglySorted R l1 /\ StronglySorted R l2.
Proof.
  induction l1 as [ | a l1 IH]; cbn [app]; intros Hs.
  - split; [constructor | assumption].
  - apply StronglySorted_inv in Hs. destruct Hs as [Hs Hall].
    destruct (IH Hs) as [H1 H2]. split; [ | assumption].
    constructor; [assumption | ].
    apply Forall_app in Hall. tauto.
Qed.

Lemma slice_sorted {A : Type} (R : A -> A -> Prop) (l : list A) (a b : Z) :
  StronglySorted R l -> StronglySorted R (slice l a b).
Proof.
  intros Hs. unfold slice.
  rewrite <- (firstn_skipn (Z.to_nat (clamp (Z.of_nat (List.length l)) a)) l)
    in Hs.
  apply sorted_app in Hs. destruct Hs as [_ Hs].
  match goal with
  | |- StronglySorted _ (firstn ?n ?l') =>
      rewrite <- (firstn_skipn n l') in Hs
  end.
  now apply sorted_app in Hs.
Qed.

End Ordering.

(** X13.  The games [games] returns come in the order of their
    identifiers: ascending when the direction is "asc", descending with
    any other direction. *)
Theorem games_ordered (self : AgentQueryService.t) (table : list GameRow.t)
  (opening_like eco_prefix family color result : option string)
  (limit offset : Z) (order_dir : string) (out : list GameView.t) :
  games self table opening_like eco_prefix family color result limit offset
    order_dir = Ok out ->
  StronglySorted (id_order (String.eqb order_dir "asc"))
    (map GameView.id out).
Proof.
  unfold games. intros H. apply bind_ok in H.
  destruct H as [all [Hall H]]. injection H as <-.
  assert (StronglySorted (id_order (String.eqb order_dir "asc"))
            (map GameView.id all)) as Hs.
  { eapply filter_rows_sorted; [ | exact Hall].
    unfold select_rows. apply order_by_id_sorted. }
  pose proof (slice_sorted _ (map GameView.id all) offset (offset + limit) Hs)
    as Hslice.
  unfold slice in *. rewrite length_map in Hslice.
  now rewrite skipn_map, firstn_map in Hslice.
Qed.

Lemma games_ordered_witness :
  exists out,
    games (new "ann") sample_table None None None None None 50 0 "descending"
    = Ok out
    /\ map GameView.id out = [3; 2; 1]
    /\ StronglySorted (id_order false) (map GameView.id out).
Proof.
  eexists. split; [reflexivity | ]. split; [reflexivity | ].
  exact (games_ordered (new "ann") sample_table None None None None None
           50 0 "descending" _ eq_refl).
Defined.

(* ----------------------------------------------------------------- *)
(** *** Result filters and the wrappers *)

Import AgentQueryWrappers.

Section ResultFilter.

Lemma pov_needs_player (self : AgentQueryService.t) (g : GameRow.t)
  (r : string) :
  _pov self g = Some r ->
  (_my_color self g = Some "white" \/ _my_color self g = Some "black")
  /\ (lower (or_empty (GameRow.white g)) = username self
      \/ lower (or_empty (GameRow.black g)) = username self).
Proof.
  unfold _pov, _my_color.
  destruct (truthy_opt (GameRow.result g)); [ | discriminate]. cbn [negb].
  destruct (String.eqb_spec (lower (or_empty (GameRow.white g)))
              (username self)); [auto | ].
  destruct (String.eqb_spec (lower (or_empty (GameRow.black g)))
              (username self)); [auto | discriminate].
Qed.

Lemma passes_given (r : string) (v : option string) :
  truthy r = true -> passes (Some r) v = true -> v = Some r.
Proof.
  unfold passes. cbn [truthy_opt]. intros ->. cbn [negb orb].
  apply opt_eqb_eq.
Qed.

Lemma games_with_result (self : AgentQueryService.t) (table : list GameRow.t)
  (opening_like eco_prefix family color : option string) (r : string)
  (limit offset : Z) (order_dir : string) (out : list GameView.t)
  (d : GameView.t) :
  truthy r = true ->
  games self table opening_like eco_prefix family color (Some r) limit offset
    order_dir = Ok out ->
  In d out ->
  GameView.pov_result d = Some r
  /\ (GameView.my_color d = Some "white" \/ GameView.my_color d = Some "black")
  /\ (lower (or_empty (GameView.white d)) = username self
      \/ lower (or_empty (GameView.black d)) = username self).
Proof.
  unfold games. intros Hr H Hd. apply bind_ok in H.
  destruct H as [all [Hall H]]. injection H as <-.
  apply in_slice in Hd.
  destruct (filter_rows_sound _ _ _ _ _ _ _ Hall Hd)
    as [g [_ [Hdict [_ [Hres _]]]]].
  destruct (row_to_dict_fields _ _ _ Hdict) as [_ [-> [-> [-> [-> _]]]]].
  apply (passes_given r _ Hr) in Hres.
  split; [assumption | ]. eapply pov_needs_player; eauto.
Qed.

End ResultFilter.

(** X14.  With a result filter every game returned has that result from
    the user's point of view and a colour, and the user name equals its
    white or its black name in lower case, a name that is missing being
    compared as the empty string.  So the user name is the white or the
    black name of the game up to case, or it is empty and a name of the
    game is missing: for a user name that is not empty, the games that are
    candidates only because a player's name contains the user name are
    dropped. *)
Theorem result_filter_exact (self : AgentQueryService.t)
  (table : list GameRow.t)
  (opening_like eco_prefix family color : option string) (r : string)
  (limit offset : Z) (order_dir : string) (out : list GameView.t)
  (d : GameView.t) :
  truthy r = true ->
  games self table opening_like eco_prefix family color (Some r) limit offset
    order_dir = Ok out ->
  In d out ->
  GameView.pov_result d = Some r
  /\ (GameView.my_color d = Some "white" \/ GameView.my_color d = Some "black")
  /\ (lower (or_empty (GameView.white d)) = username self
      \/ lower (or_empty (GameView.black d)) = username self)
  /\ (named (GameView.white d) (username self) = true
      \/ named (GameView.black d) (username self) = true
      \/ (username self = EmptyString
          /\ (GameView.white d = None \/ GameView.black d = None))).
Proof.
  intros Hr H Hd.
  destruct (games_with_result _ _ _ _ _ _ _ _ _ _ _ _ Hr H Hd)
    as [Hpov [Hcol Hname]].
  repeat split; try assumption.
  now apply players_named.
Qed.

Lemma result_filter_exact_witness :
  exists out d,
    games (new "ann") sample_table None None None None (Some "win") 50 0 "asc"
    = Ok out
    /\ In d out
    /\ GameView.id d = 2
    /\ GameView.pov_result d = Some "win".
Proof.
  eexists. eexists. split; [reflexivity | ].
  split; [right; left; reflexivity | ]. split; [reflexivity | ].
  refine (proj1 (result_filter_exact (new "ann") sample_table None None None
                   None "win" 50 0 "asc" _ _ eq_refl eq_refl _)).
  right. left. reflexivity.
Defined.

(** X15.  No game is returned by two of [wins], [losses] and [draws]
    called with the same arguments. *)
Theorem wins_losses_draws_apart (self : AgentQueryService.t)
  (table : list GameRow.t)
  (opening_like eco_prefix family color : option string)
  (limit offset : Z) (order_dir : string) (ws ls ds : list GameView.t)
  (d : GameView.t) :
  wins self table opening_like eco_prefix family color limit offset order_dir
  = Ok ws ->
  losses self table opening_like eco_prefix family color limit offset
    order_dir = Ok ls ->
  draws self table opening_like eco_prefix family color limit offset order_dir
  = Ok ds ->
  ~ (In d ws /\ In d ls) /\ ~ (In d ws /\ In d ds) /\ ~ (In d ls /\ In d ds).
Proof.
  unfold wins, losses, draws. intros Hw Hl Hd.
  repeat split; intros [H1 H2];
    match goal with
    | Ha : games _ _ _ _ _ _ (Some ?a) _ _ _ = Ok ?la, Ia : In d ?la,
      Hb : games _ _ _ _ _ _ (Some ?b) _ _ _ = Ok ?lb, Ib : In d ?lb |- _ =>
        lazymatch a with
        | b => fail
        | _ =>
            pose proof (proj1 (games_with_result _ _ _ _ _ _ a _ _ _ _ d
                                 eq_refl Ha Ia)) as Pa;
            pose proof (proj1 (games_with_result _ _ _ _ _ _ b _ _ _ _ d
                                 eq_refl Hb Ib)) as Pb;
            rewrite Pa in Pb; discriminate Pb
        end
    end.
Qed.

Lemma wins_losses_draws_apart_witness :
  exists ws ds d,
    wins (new "annabelle") sample_table None None None None 50 0 "asc" = Ok ws
    /\ draws (new "annabelle") sample_table None None None None 50 0 "asc"
       = Ok ds
    /\ ws = [] /\ map GameView.id ds = [3]
    /\ In d ds
    /\ ~ (In d ws /\ In d ds).
Proof.
  eexists. eexists. eexists. split; [reflexivity | ]. split; [reflexivity | ].
  split; [reflexivity | ]. split; [reflexivity | ].
  split; [left; reflexivity | ].
  exact (proj1 (proj2 (wins_losses_draws_apart (new "annabelle") sample_table
                         None None None None 50 0 "asc" _ _ _ _
                         eq_refl eq_refl eq_refl))).
Defined.

(* ----------------------------------------------------------------- *)
(** *** The filters of the statement *)

Section StatementFilters.


End StatementFilters.



(** X17.  For the empty user name every stored game with a white or a
    black name is a candidate. *)
Theorem empty_username_candidates (g : GameRow.t) :
  candidate (new EmptyString) g = true
  <-> GameRow.white g <> None \/ GameRow.black g <> None.
Proof.
  unfold candidate, new. cbn [lower username].
  rewrite !(ilike_contains EmptyString) by reflexivity.
  rewrite orb_true_iff.
  assert (forall s, contains_nocase EmptyString s = true) as Hany
      by (intros s; destruct s; reflexivity).
  destruct (GameRow.white g), (GameRow.black g);
    cbn [option_map appears_in];
    rewrite ?Hany; split; intros H; auto; try (left; discriminate);
    try (right; discriminate); destruct H as [H | H]; try discriminate;
    contradiction.
Qed.

(* ================================================================= *)
(** * More on the ingest *)

Section Upsert.

Variable sha1 : string -> string.

(** The loop appends the rows it inserts and counts them. *)
Lemma upsert_loop_grows (games : list Game.t) :
  forall (table : list GameRow.t) (inserted skipped : Z),
  exists added,
    upsert_loop sha1 games table inserted skipped
    = ((table ++ added)%list,
       (inserted + Z.of_nat (List.length added),
        skipped + (Z.of_nat (List.length games)
                   - Z.of_nat (List.length added))))
    /\ (List.length added <= List.length games)%nat.
Proof.
  induction games as [ | g rest IH]; intros table inserted skipped.
  - exists []. cbn. rewrite app_nil_r, !Z.add_0_r. auto.
  - cbn [upsert_loop].
    destruct (first_with_hash _ table) as [r | ].
    + destruct (IH table inserted (skipped + 1)) as [added [-> Hlen]].
      exists added. split; [ | cbn [List.length]; lia].
      apply (f_equal (pair _)). apply f_equal2; cbn [List.length]; lia.
    + destruct (IH (table ++ [new_row sha1 table g])%list (inserted + 1) skipped)
        as [added [-> Hlen]].
      exists (new_row sha1 table g :: added).
      split; [ | cbn [List.length]; lia].
      rewrite <- app_assoc. cbn [app].
      apply (f_equal (pair _)). apply f_equal2; cbn [List.length]; lia.
Qed.

(** The hashes stored after the loop: those stored before, and those of
    the games. *)
Lemma upsert_loop_hashes (games : list Game.t) (h : string) :
  forall (table : list GameRow.t) (inserted skipped : Z),
    In h (map GameRow.pgn_sha1
            (fst (upsert_loop sha1 games table inserted skipped)))
    <-> In h (map GameRow.pgn_sha1 table) \/ In h (batch_hashes sha1 games).
Proof.
  induction games as [ | g rest IH]; intros table inserted skipped.
  - cbn. tauto.
  - cbn [upsert_loop batch_hashes map In]. fold (raw_text g).
    fold (batch_hashes sha1 rest). unfold _pgn_hash.
    destruct (first_with_hash _ table) as [r | ] eqn:Hfind.
    + rewrite IH. unfold first_with_hash in Hfind.
      apply find_some in Hfind. destruct Hfind as [Hin Heq].
      apply String.eqb_eq in Heq.
      assert (In (sha1 (raw_text g)) (map GameRow.pgn_sha1 table)) as Hg
          by (rewrite <- Heq; now apply in_map).
      split; [tauto | ]. intros [H | [<- | H]]; auto.
    + rewrite IH, map_app, in_app_iff. cbn [map In new_row GameRow.pgn_sha1].
      fold (raw_text g). unfold _pgn_hash. tauto.
Qed.

Lemma below_next_id (table : list GameRow.t) (r : GameRow.t) :
  In r table -> GameRow.id r < Sql.next_id table.
Proof.
  unfold Sql.next_id.
  induction table as [ | x rest IH]; cbn [In fold_right]; [tauto | ].
  intros [<- | H]; [lia | ]. specialize (IH H). lia.
Qed.

Lemma ids_unique_add (table : list GameRow.t) (g : Game.t) :
  ids_unique table -> ids_unique (table ++ [new_row sha1 table g]).
Proof.
  unfold ids_unique. intros Hu. rewrite map_app. cbn [map].
  apply NoDup_app; [assumption | repeat constructor; intros [] | ].
  intros i Hi [<- | []]. apply in_map_iff in Hi.
  destruct Hi as [r [Hr Hin]]. apply below_next_id in Hin.
  cbn [new_row GameRow.id] in Hr. lia.
Qed.

Lemma upsert_loop_ids (games : list Game.t) :
  forall (table : list GameRow.t) (inserted skipped : Z),
    ids_unique table ->
    ids_unique (fst (upsert_loop sha1 games table inserted skipped)).
Proof.
  induction games as [ | g rest IH]; intros table inserted skipped Hu;
    cbn [upsert_loop]; [assumption | ].
  destruct (first_with_hash _ table); apply IH; [assumption | ].
  now apply ids_unique_add.
Qed.

Lemma upsert_loop_hashed (games : list Game.t) :
  forall (table : list GameRow.t) (inserted skipped : Z),
    hashed_by sha1 table ->
    hashed_by sha1 (fst (upsert_loop sha1 games table inserted skipped)).
Proof.
  induction games as [ | g rest IH]; intros table inserted skipped Hh;
    cbn [upsert_loop]; [assumption | ].
  destruct (first_with_hash _ table); apply IH; [assumption | ].
  unfold hashed_by. apply Forall_app. split; [assumption | ].
  repeat constructor.
Qed.

(** The counters play no part in what is stored. *)
Lemma upsert_loop_table (games : list Game.t) :
  forall (table : list GameRow.t) (i s i' s' : Z),
    fst (upsert_loop sha1 games table i s)
    = fst (upsert_loop sha1 games table i' s').
Proof.
  induction games as [ | g rest IH]; intros table i s i' s';
    cbn [upsert_loop]; [reflexivity | ].
  destruct (first_with_hash _ table); apply IH.
Qed.

(** The counters only add up. *)
Lemma upsert_loop_counters (games : list Game.t) :
  forall (table : list GameRow.t) (inserted skipped : Z),
    upsert_loop sha1 games table inserted skipped
    = (fst (upsert_loop sha1 games table 0 0),
       (inserted + fst (snd (upsert_loop sha1 games table 0 0)),
        skipped + snd (snd (upsert_loop sha1 games table 0 0)))).
Proof.
  intros table inserted skipped.
  pose proof (upsert_loop_table games table inserted skipped 0 0) as Hfst.
  destruct (upsert_loop_grows games table inserted skipped) as [a1 [H1 _]].
  destruct (upsert_loop_grows games table 0 0) as [a2 [H2 _]].
  rewrite H1, H2 in Hfst. cbn [fst] in Hfst.
  apply app_inv_head in Hfst. subst a2.
  rewrite H1, H2. cbn [fst snd].
  apply (f_equal (pair _)). apply f_equal2; lia.
Qed.

Lemma upsert_loop_app (games1 games2 : list Game.t) :
  forall (table : list GameRow.t) (inserted skipped : Z),
    upsert_loop sha1 (games1 ++ games2) table inserted skipped
    = upsert_loop sha1 games2
        (fst (upsert_loop sha1 games1 table inserted skipped))
        (fst (snd (upsert_loop sha1 games1 table inserted skipped)))
        (snd (snd (upsert_loop sha1 games1 table inserted skipped))).
Proof.
  induction games1 as [ | g rest IH]; intros table inserted skipped;
    cbn [app upsert_loop]; [reflexivity | ].
  destruct (first_with_hash _ table); apply IH.
Qed.

(** Games whose hashes are all stored are all skipped. *)
Lemma upsert_loop_all_stored (games : list Game.t) :
  forall (table : list GameRow.t) (inserted skipped : Z),
    (forall g, In g games ->
               In (sha1 (raw_text g)) (map GameRow.pgn_sha1 table)) ->
    upsert_loop sha1 games table inserted skipped
    = (table, (inserted, skipped + Z.of_nat (List.length games))).
Proof.
  induction games as [ | g rest IH]; intros table inserted skipped Hall.
  - cbn. now rewrite Z.add_0_r.
  - cbn [upsert_loop]. fold (raw_text g). unfold _pgn_hash.
    destruct (first_with_hash _ table) as [r | ] eqn:Hfind.
    + rewrite IH by (intros g' Hg'; apply Hall; now right).
      apply (f_equal (pair _)). apply f_equal2; cbn [List.length]; lia.
    + exfalso. apply (first_with_hash_none _ _ Hfind). apply Hall. now left.
Qed.

Lemma nodup_app_apart {A : Type} (l1 l2 : list A) (x : A) :
  NoDup (l1 ++ l2) -> In x l1 -> ~ In x l2.
Proof.
  induction l1 as [ | a l1 IH]; cbn [app In]; [tauto | ].
  intros Hnd [<- | Hx] Hx2.
  - inversion Hnd as [ | ? ? Hnotin _]; subst. apply Hnotin.
    apply in_or_app. now right.
  - inversion Hnd; subst. now apply (IH H2 Hx).
Qed.

End Upsert.

(** X18.  [upsert_games] leaves the stored rows as they are and appends
    one row for each game it counts as inserted; every game is counted
    once, as inserted or as skipped. *)
Theorem upsert_appends (sha1 : string -> string) (table : list GameRow.t)
  (games : list Game.t) :
  exists added,
    fst (upsert_games sha1 table games) = (table ++ added)%list
    /\ fst (snd (upsert_games sha1 table games))
       = Z.of_nat (List.length added)
    /\ snd (snd (upsert_games sha1 table games))
       = Z.of_nat (List.length games) - Z.of_nat (List.length added)
    /\ (List.length added <= List.length games)%nat.
Proof.
  unfold upsert_games.
  destruct (upsert_loop_grows sha1 games table 0 0) as [added [-> Hlen]].
  exists added. cbn [fst snd]. repeat split; auto.
Qed.

(** X19.  After [upsert_games] the stored hashes are those stored before
    and those of the texts of the games, and no other. *)
Theorem upsert_hashes (sha1 : string -> string) (table : list GameRow.t)
  (games : list Game.t) (h : string) :
  In h (map GameRow.pgn_sha1 (fst (upsert_games sha1 table games)))
  <-> In h (map GameRow.pgn_sha1 table) \/ In h (batch_hashes sha1 games).
Proof.
  apply upsert_loop_hashes.
Qed.

(** X20.  [upsert_games] keeps the identifiers of the rows apart: every
    new row gets an identifier larger than all those stored. *)
Theorem upsert_ids_unique (sha1 : string -> string) (table : list GameRow.t)
  (games : list Game.t) :
  ids_unique table -> ids_unique (fst (upsert_games sha1 table games)).
Proof.
  apply upsert_loop_ids.
Qed.

Lemma upsert_ids_unique_witness :
  ids_unique sample_table
  /\ ids_unique
       (fst (upsert_games (fun s => s) sample_table
               [game (Some "1. d4") (Some "Ann") (Some "Cid") (Some "1-0");
                game (Some "1. c4") (Some "Cid") (Some "Ann") (Some "0-1")])).
Proof.
  assert (ids_unique sample_table) as Hu.
  { unfold ids_unique, sample_table. cbn [map row GameRow.id].
    repeat constructor; cbn [In]; intros H;
      repeat (destruct H as [H | H]; try discriminate H); assumption. }
  split; [exact Hu | ].
  exact (upsert_ids_unique (fun s => s) sample_table _ Hu).
Defined.

(** X21.  When every stored row carries the hash of its own text, so
    does every row after [upsert_games]. *)
Theorem upsert_hashed (sha1 : string -> string) (table : list GameRow.t)
  (games : list Game.t) :
  hashed_by sha1 table -> hashed_by sha1 (fst (upsert_games sha1 table games)).
Proof.
  apply upsert_loop_hashed.
Qed.

Lemma upsert_hashed_witness :
  hashed_by (fun s => s)
    (fst (upsert_games (fun s => s) []
            [game (Some "1. d4") (Some "Ann") (Some "Cid") (Some "1-0");
             game None (Some "Cid") (Some "Ann") (Some "0-1")])).
Proof.
  apply (upsert_hashed (fun s => s) []). constructor.
Defined.

(** X22.  Ingesting a batch in one call or in two gives the same store
    and the same counts in all. *)
Theorem upsert_split (sha1 : string -> string) (table : list GameRow.t)
  (games1 games2 : list Game.t) :
  upsert_games sha1 table (games1 ++ games2)
  = (fst (upsert_games sha1 (fst (upsert_games sha1 table games1)) games2),
     (fst (snd (upsert_games sha1 table games1))
      + fst (snd (upsert_games sha1 (fst (upsert_games sha1 table games1))
                    games2)),
      snd (snd (upsert_games sha1 table games1))
      + snd (snd (upsert_games sha1 (fst (upsert_games sha1 table games1))
                    games2)))).
Proof.
  unfold upsert_games. rewrite upsert_loop_app.
  apply upsert_loop_counters.
Qed.

(** X23.  Ingesting the same batch once more inserts nothing: every game
    is skipped and the store stays as it is. *)
Theorem upsert_twice (sha1 : string -> string) (table : list GameRow.t)
  (games : list Game.t) :
  upsert_games sha1 (fst (upsert_games sha1 table games)) games
  = (fst (upsert_games sha1 table games), (0, Z.of_nat (List.length games))).
Proof.
  unfold upsert_games at 1.
  rewrite upsert_loop_all_stored; [reflexivity | ].
  intros g Hg. apply upsert_loop_hashes. right.
  unfold batch_hashes. apply in_map_iff. exists g. auto.
Qed.

(** X24.  On a store with at most one row for each hash, the order of the
    games of a batch changes neither the counts nor the hashes stored. *)
Theorem upsert_order_free (sha1 : string -> string) (table : list GameRow.t)
  (games games' : list Game.t) :
  hash_unique table ->
  Permutation games games' ->
  snd (upsert_games sha1 table games) = snd (upsert_games sha1 table games')
  /\ forall h,
       In h (map GameRow.pgn_sha1 (fst (upsert_games sha1 table games)))
       <-> In h (map GameRow.pgn_sha1 (fst (upsert_games sha1 table games'))).
Proof.
  intros Hu Hperm.
  assert (forall h,
             In h (map GameRow.pgn_sha1 (fst (upsert_games sha1 table games)))
             <-> In h (map GameRow.pgn_sha1
                         (fst (upsert_games sha1 table games')))) as Hsame.
  { intros h. unfold upsert_games. rewrite !upsert_loop_hashes.
    assert (In h (batch_hashes sha1 games) <-> In h (batch_hashes sha1 games'))
      as Hb.
    { unfold batch_hashes. split; apply Permutation_in; apply Permutation_map;
        [assumption | now apply Permutation_sym]. }
    tauto. }
  split; [ | exact Hsame].
  pose proof (upsert_games_unique sha1 table games Hu) as Hu1.
  pose proof (upsert_games_unique sha1 table games' Hu) as Hu2.
  unfold upsert_games in *.
  destruct (upsert_loop_grows sha1 games table 0 0) as [a1 [H1 _]].
  destruct (upsert_loop_grows sha1 games' table 0 0) as [a2 [H2 _]].
  rewrite H1 in Hu1, Hsame. rewrite H2 in Hu2, Hsame. rewrite H1, H2.
  cbn [fst snd] in *. unfold hash_unique in Hu1, Hu2.
  rewrite map_app in Hu1, Hu2.
  assert (Permutation (map GameRow.pgn_sha1 a1) (map GameRow.pgn_sha1 a2))
    as Hp.
  { apply NoDup_Permutation.
    - now apply NoDup_app_remove_l in Hu1.
    - now apply NoDup_app_remove_l in Hu2.
    - intros h. specialize (Hsame h). rewrite !map_app, !in_app_iff in Hsame.
      split; intros Hh.
      + destruct (proj1 Hsame (or_intror Hh)) as [Ht | Ha]; [ | assumption].
        exfalso. exact (nodup_app_apart _ _ h Hu1 Ht Hh).
      + destruct (proj2 Hsame (or_intror Hh)) as [Ht | Ha]; [ | assumption].
        exfalso. exact (nodup_app_apart _ _ h Hu2 Ht Hh). }
  apply Permutation_length in Hp. rewrite !length_map in Hp.
  apply Permutation_length in Hperm. rewrite Hp, Hperm. reflexivity.
Qed.

Lemma upsert_order_free_witness :
  snd (upsert_games (fun s => s) []
         [game (Some "1. d4") None None None; game (Some "1. c4") None None None;
          game (Some "1. d4") None None None])
  = snd (upsert_games (fun s => s) []
           [game (Some "1. d4") None None None;
            game (Some "1. d4") None None None;
            game (Some "1. c4") None None None]).
Proof.
  refine (proj1 (upsert_order_free (fun s => s) [] _ _ (NoDup_nil _) _)).
  apply perm_skip. apply perm_swap.
Defined.

(* ================================================================= *)
(** * [games_by_result] of the analyzer *)

Section Analyzer.

Lemma in_offset_limit {A : Type} (offset limit : Z) (rows : list A) (x : A) :
  In x (GameAnalyzer.offset_limit offset limit rows) -> In x rows.
Proof.
  unfold GameAnalyzer.offset_limit. intros H.
  rewrite <- (firstn_skipn (Z.to_nat offset) rows).
  apply in_or_app. right.
  destruct (limit <? 0); [assumption | ].
  rewrite <- (firstn_skipn (Z.to_nat limit) (skipn (Z.to_nat offset) rows)).
  apply in_or_app. now left.
Qed.

Lemma offset_limit_window {A : Type} (offset limit : Z) (rows : list A) :
  0 <= offset -> 0 <= limit ->
  GameAnalyzer.offset_limit offset limit
    (firstn (Z.to_nat (offset + limit)) rows)
  = GameAnalyzer.offset_limit offset limit rows.
Proof.
  intros Ho Hl. unfold GameAnalyzer.offset_limit.
  destruct (Z.ltb_spec limit 0); [lia | ].
  rewrite skipn_firstn_comm, firstn_firstn.
  f_equal. lia.
Qed.

(** The three outcomes [games_by_result] knows. *)
Lemma outcome_accepted (outcome : string) :
  negb (String.eqb outcome "win" || String.eqb outcome "loss"
        || String.eqb outcome "draw") = false
  <-> outcome = "win" \/ outcome = "loss" \/ outcome = "draw".
Proof.
  rewrite negb_false_iff, !orb_true_iff, !String.eqb_eq. tauto.
Qed.

End Analyzer.

(** X25.  [games_by_result] fails its assertion exactly when the outcome
    asked for, in lower case, is none of "win", "loss" and "draw". *)
Theorem games_by_result_asserts
  (header_eco header_opening : string -> option string)
  (table : list GameRow.t) (username outcome : string) (limit offset : Z) :
  GameAnalyzer.games_by_result header_eco header_opening table username
    outcome limit offset = inl GameAnalyzer.AssertionError
  <-> ~ In (lower outcome) ["win"; "loss"; "draw"].
Proof.
  unfold GameAnalyzer.games_by_result, GameAnalyzer.rows_by_result.
  destruct (negb _) eqn:Hacc.
  - split; [ | reflexivity]. intros _ Hin.
    assert (negb (String.eqb (lower outcome) "win"
                  || String.eqb (lower outcome) "loss"
                  || String.eqb (lower outcome) "draw") = false) as H.
    { apply outcome_accepted. cbn [In] in Hin.
      destruct Hin as [H | [H | [H | []]]]; symmetry in H; auto. }
    rewrite H in Hacc. discriminate.
  - split; [discriminate | ]. intros Hnot. exfalso. apply Hnot.
    apply outcome_accepted in Hacc. cbn [In].
    destruct Hacc as [H | [H | H]]; symmetry in H; auto.
Qed.

(** X26.  For the outcome "draw", in any case of its letters,
    [games_by_result] returns the same games for every user name: the
    drawn games of the window, whoever played them. *)
Theorem draws_for_any_user
  (header_eco header_opening : string -> option string)
  (table : list GameRow.t) (user1 user2 outcome : string) (limit offset : Z) :
  lower outcome = "draw" ->
  GameAnalyzer.games_by_result header_eco header_opening table user1 outcome
    limit offset
  = GameAnalyzer.games_by_result header_eco header_opening table user2 outcome
      limit offset.
Proof.
  intros H. unfold GameAnalyzer.games_by_result, GameAnalyzer.rows_by_result.
  rewrite H. reflexivity.
Qed.

Lemma draws_for_any_user_witness :
  GameAnalyzer.games_by_result (fun _ => None) (fun _ => None) sample_table
    "ann" "Draw" 50 0
  = GameAnalyzer.games_by_result (fun _ => None) (fun _ => None) sample_table
      "nobody" "Draw" 50 0.
Proof.
  exact (draws_for_any_user (fun _ => None) (fun _ => None) sample_table
           "ann" "nobody" "Draw" 50 0 eq_refl).
Defined.

(** X27.  With a limit that is not negative [games_by_result] returns at
    most that many games, each the view of a stored row for which the
    predicate of the outcome holds. *)
Theorem games_by_result_sound
  (header_eco header_opening : string -> option string)
  (table : list GameRow.t) (username outcome : string) (limit offset : Z)
  (views : list AnalyzerView.t) :
  0 <= limit ->
  GameAnalyzer.games_by_result header_eco header_opening table username
    outcome limit offset = inr views ->
  Z.of_nat (List.length views) <= limit
  /\ forall v, In v views ->
       exists r,
         In r table
         /\ v = GameAnalyzer._to_view header_eco header_opening r
         /\ (lower outcome = "win" ->
             GameAnalyzer.is_win (lower username) r = true)
         /\ (lower outcome = "loss" ->
             GameAnalyzer.is_loss (lower username) r = true)
         /\ (lower outcome = "draw" -> GameAnalyzer.is_draw r = true).
Proof.
  unfold GameAnalyzer.games_by_result, GameAnalyzer.rows_by_result.
  intros Hlimit. destruct (negb _); [discriminate | ].
  intros H. injection H as <-. split.
  - rewrite length_map. exact (slice_length _ 0 limit Hlimit).
  - intros v Hv. apply in_map_iff in Hv. destruct Hv as [r [<- Hr]].
    apply in_slice in Hr. apply filter_In in Hr. destruct Hr as [Hin Hp].
    apply in_offset_limit in Hin.
    exists r. split; [assumption | ]. split; [reflexivity | ].
    repeat split; intros Ho; rewrite Ho in Hp; exact Hp.
Qed.

Lemma games_by_result_sound_witness :
  exists views,
    GameAnalyzer.games_by_result (fun _ => None) (fun _ => None) sample_table
      "Ann" "WIN" 1 0 = inr views
    /\ map AnalyzerView.id views = [1]
    /\ Z.of_nat (List.length views) <= 1.
Proof.
  eexists. split; [reflexivity | ]. split; [reflexivity | ].
  refine (proj1 (games_by_result_sound (fun _ => None) (fun _ => None)
                   sample_table "Ann" "WIN" 1 0 _ _ eq_refl)).
  lia.
Defined.

(** X28.  [games_by_result] looks at a window of the table only, the
    [10 * limit] rows after the first [offset]: the rows behind the window
    play no part, whether the predicate holds for them or not. *)
Theorem games_by_result_window
  (header_eco header_opening : string -> option string)
  (table : list GameRow.t) (username outcome : string) (limit offset : Z) :
  0 <= offset ->
  0 <= limit ->
  GameAnalyzer.games_by_result header_eco header_opening
    (firstn (Z.to_nat (offset + limit * 10)) table) username outcome limit
    offset
  = GameAnalyzer.games_by_result header_eco header_opening table username
      outcome limit offset.
Proof.
  intros Ho Hl.
  unfold GameAnalyzer.games_by_result, GameAnalyzer.rows_by_result.
  rewrite offset_limit_window by lia. reflexivity.
Qed.

Lemma games_by_result_window_witness :
  GameAnalyzer.games_by_result (fun _ => None) (fun _ => None)
    (firstn (Z.to_nat (1 + 1 * 10))
       (sample_table ++ sample_table ++ sample_table ++ sample_table ++ sample_table))
    "ann" "win" 1 1
  = GameAnalyzer.games_by_result (fun _ => None) (fun _ => None)
      (sample_table ++ sample_table ++ sample_table ++ sample_table ++ sample_table)
      "ann" "win" 1 1.
Proof.
  apply (games_by_result_window (fun _ => None) (fun _ => None)
           (sample_table ++ sample_table ++ sample_table ++ sample_table
            ++ sample_table)
           "ann" "win" 1 1); lia.
Defined.
